(** * Query construction and name classification of the dataset explorer

    A shallow embedding of the decision logic found in
    [frontend/src/components/TableSelector.tsx] ([parseTableName] and the
    [QueryBuilder] component's [updateQueryFromState]) and in
    [frontend/src/components/Explorer.tsx] ([groupTablesByDate],
    [groupDatasets], [insertFieldIntoQuery]), together with the properties
    that the design document states about them.

    Conventions of the embedding.
    - A JavaScript string is a [string]: a sequence of 8-bit code units read
      as the code points U+0000..U+00FF.  The string built-ins below are
      modelled on that repertoire.
    - A JavaScript number that the code only prints, tests for truthiness or
      subtracts is an integer or NaN ([JS.number]).
    - An optional property ([alias?], [limit?], ...) is an [option].
    - A plain object used as a dictionary is the list of its own properties
      in creation order ([JS.obj]); [Object.entries] lists the properties
      named by array indices first.
    - [localeCompare] is the collation of the host; the functions that call
      it take it as an argument.
    - A React callback that reports through [onQueryChange], [onStateChange]
      or [setQuery] returns what it reports. *)

From Stdlib Require Import String Ascii List ZArith NArith Bool Lia.
From Stdlib Require Import DecimalString.
From Stdlib Require Import Sorted Permutation.
Import ListNotations.

Local Open Scope list_scope.
Local Open Scope string_scope.

Set Warnings "-register-all".

(* ===================================================================== *)
(** * Built-ins of the host language used by the source                   *)
(* ===================================================================== *)

Module JS.

(** ** Characters *)

Definition code (c : ascii) : N := N_of_ascii c.

Definition isDigit (c : ascii) : bool :=
  (48 <=? code c)%N && (code c <=? 57)%N.

Definition isHexDigit (c : ascii) : bool :=
  isDigit c
  || ((65 <=? code c)%N && (code c <=? 70)%N)
  || ((97 <=? code c)%N && (code c <=? 102)%N).

Definition isOctalDigit (c : ascii) : bool :=
  (48 <=? code c)%N && (code c <=? 55)%N.

Definition isBinaryDigit (c : ascii) : bool :=
  (code c =? 48)%N || (code c =? 49)%N.

(** WhiteSpace and LineTerminator code points below U+0100: TAB, LF, VT, FF,
    CR, SP and NBSP. *)
Definition isWhiteSpace (c : ascii) : bool :=
  let n := code c in
  ((9 <=? n)%N && (n <=? 13)%N) || (n =? 32)%N || (n =? 160)%N.

Definition isUpper (c : ascii) : bool :=
  let n := code c in
  ((65 <=? n)%N && (n <=? 90)%N)
  || ((192 <=? n)%N && (n <=? 222)%N && negb (n =? 215)%N).

Definition isLower (c : ascii) : bool :=
  let n := code c in
  ((97 <=? n)%N && (n <=? 122)%N)
  || ((224 <=? n)%N && (n <=? 254)%N && negb (n =? 247)%N).

Definition toLowerChar (c : ascii) : ascii :=
  if isUpper c then ascii_of_N (code c + 32) else c.

(** [toUpperChar] yields a string: U+00DF upper-cases to two letters.  The
    upper-case forms of U+00B5 and U+00FF are U+039C and U+0178, which are
    no characters of the alphabet: there [toUpperChar] is not [toUpperCase]
    (it keeps the character), and the properties that read an upper case
    assume [upperCaseInAlphabet]. *)
Definition toUpperChar (c : ascii) : string :=
  if isLower c then String (ascii_of_N (code c - 32)) EmptyString
  else if (code c =? 223)%N then "SS"
  else String c EmptyString.


(** ** Strings *)

Fixpoint toLowerCase (s : string) : string :=
  match s with
  | EmptyString => EmptyString
  | String c s' => String (toLowerChar c) (toLowerCase s')
  end.

Fixpoint toUpperCase (s : string) : string :=
  match s with
  | EmptyString => EmptyString
  | String c s' => toUpperChar c ++ toUpperCase s'
  end.

(** [s.charAt(0)]: the first character as a string, empty when there is
    none; [s.slice(1)]: the string without its first character. *)
Definition charAt0 (s : string) : string :=
  match s with
  | EmptyString => EmptyString
  | String c _ => String c EmptyString
  end.

Definition slice1 (s : string) : string :=
  match s with
  | EmptyString => EmptyString
  | String _ s' => s'
  end.

(** [s.startsWith(p)] *)
Fixpoint startsWith (s p : string) {struct p} : bool :=
  match p, s with
  | EmptyString, _ => true
  | String c p', String d s' => Ascii.eqb c d && startsWith s' p'
  | String _ _, EmptyString => false
  end.

(** [s.includes(p)]: [p] starts at some position of [s]. *)
Fixpoint includes (s p : string) : bool :=
  startsWith s p
  || match s with
     | EmptyString => false
     | String _ s' => includes s' p
     end.

(** [s.endsWith(p)]: some suffix of [s] is [p]. *)
Fixpoint endsWith (s p : string) : bool :=
  String.eqb s p
  || match s with
     | EmptyString => false
     | String _ s' => endsWith s' p
     end.

Fixpoint trimStart (s : string) : string :=
  match s with
  | EmptyString => EmptyString
  | String c s' => if isWhiteSpace c then trimStart s' else s
  end.

Fixpoint trimEnd (s : string) : string :=
  match s with
  | EmptyString => EmptyString
  | String c s' =>
      match trimEnd s' with
      | EmptyString => if isWhiteSpace c then EmptyString else String c EmptyString
      | t => String c t
      end
  end.

Definition trim (s : string) : string := trimEnd (trimStart s).

(** [s.split(sep)] for a separator of one character: the segments between
    the occurrences of [sep]; never the empty array. *)
Fixpoint split (sep : ascii) (s : string) : list string :=
  match s with
  | EmptyString => [EmptyString]
  | String c s' =>
      if Ascii.eqb c sep then EmptyString :: split sep s'
      else match split sep s' with
           | [] => [String c EmptyString]
           | seg :: segs => String c seg :: segs
           end
  end.

(** [parts.join(sep)] *)
Definition join (sep : string) (parts : list string) : string :=
  String.concat sep parts.

(** ** Numbers *)

(** The numbers of the model: an integer, or NaN.  The numbers of the
    source are doubles.  The model is exact on NaN and on the safe integers
    ([isSafeInteger]): a double holds such an integer exactly, it is printed
    in plain decimal digits, and a difference of two of them has the sign
    of the exact difference.  Fractions and infinities are not modelled,
    and the properties that print a number or compare parsed numbers assume
    safe integers. *)
Inductive number : Type :=
| NaN
| Num (z : Z).

(** [Number.isSafeInteger(n)]: an integer of magnitude at most 2^53 - 1. *)
Definition isSafeInteger (n : number) : bool :=
  match n with
  | NaN => false
  | Num z => (Z.abs z <=? 9007199254740991)%Z
  end.

(** Truthiness of a number: NaN and zero are falsy. *)
Definition truthy (n : number) : bool :=
  match n with
  | NaN => false
  | Num z => negb (z =? 0)%Z
  end.

Definition sub (a b : number) : number :=
  match a, b with
  | Num x, Num y => Num (x - y)
  | _, _ => NaN
  end.

(** *** The conversion [Number(s)], observed through [isNaN]

    [Number] applied to a string parses a StringNumericLiteral: optional
    white space around nothing at all, around a signed decimal literal
    (with optional fraction and exponent, or [Infinity]) or around an
    unsigned binary, octal or hexadecimal integer literal.  Any other text
    converts to NaN.  The source only asks whether the result is NaN. *)

Fixpoint skipDigits (s : string) : string :=
  match s with
  | String c s' => if isDigit c then skipDigits s' else s
  | EmptyString => EmptyString
  end.

(** One or more decimal digits; the text after them. *)
Definition decimalDigits (s : string) : option string :=
  match s with
  | String c s' => if isDigit c then Some (skipDigits s') else None
  | EmptyString => None
  end.

Definition skipSign (s : string) : string :=
  match s with
  | String "+" s' => s'
  | String "-" s' => s'
  | _ => s
  end.

(** Nothing, or a whole ExponentPart. *)
Definition exponentPartOpt (s : string) : bool :=
  match s with
  | EmptyString => true
  | String c s' =>
      if Ascii.eqb c "e" || Ascii.eqb c "E" then
        match decimalDigits (skipSign s') with
        | Some EmptyString => true
        | _ => false
        end
      else false
  end.

Definition strUnsignedDecimalLiteral (s : string) : bool :=
  if String.eqb s "Infinity" then true
  else match s with
       | String "." s' =>
           match decimalDigits s' with
           | Some r => exponentPartOpt r
           | None => false
           end
       | _ =>
           match decimalDigits s with
           | Some (String "." r) => exponentPartOpt (skipDigits r)
           | Some r => exponentPartOpt r
           | None => false
           end
       end.

Fixpoint allChars (p : ascii -> bool) (s : string) : bool :=
  match s with
  | EmptyString => true
  | String c s' => p c && allChars p s'
  end.

Definition nonEmpty (s : string) : bool :=
  match s with EmptyString => false | String _ _ => true end.

Definition nonDecimalIntegerLiteral (s : string) : bool :=
  match s with
  | String "0" (String k ds) =>
      if Ascii.eqb k "x" || Ascii.eqb k "X"
      then nonEmpty ds && allChars isHexDigit ds
      else if Ascii.eqb k "o" || Ascii.eqb k "O"
      then nonEmpty ds && allChars isOctalDigit ds
      else if Ascii.eqb k "b" || Ascii.eqb k "B"
      then nonEmpty ds && allChars isBinaryDigit ds
      else false
  | _ => false
  end.

Definition strNumericLiteral (s : string) : bool :=
  nonDecimalIntegerLiteral s || strUnsignedDecimalLiteral (skipSign s).

(** [isNaN(Number(s))] *)
Definition isNaN_Number (s : string) : bool :=
  match trim s with
  | EmptyString => false
  | t => negb (strNumericLiteral t)
  end.

(** *** [parseInt(s, 10)]

    Leading white space is skipped, a sign is read, and the longest run of
    decimal digits that follows is the value; NaN when that run is empty.
    The model reads the exact integer, and the source the double nearest to
    it: they agree when the result is a safe integer ([isSafeInteger]). *)

Definition digitValue (c : ascii) : Z := Z.of_N (code c) - 48.

Fixpoint digitsValue (acc : Z) (s : string) : Z :=
  match s with
  | String c s' =>
      if isDigit c then digitsValue (10 * acc + digitValue c) s' else acc
  | EmptyString => acc
  end.

Definition parseInt10 (s : string) : number :=
  let t := trimStart s in
  let negative := match t with String "-" _ => true | _ => false end in
  let u := skipSign t in
  match decimalDigits u with
  | Some _ =>
      let v := digitsValue 0 u in
      Num (if negative then - v else v)
  | None => NaN
  end.

(** ** Code-unit order of strings, and the default order of [sort()] *)

Fixpoint stringLt (a b : string) : bool :=
  match a, b with
  | _, EmptyString => false
  | EmptyString, String _ _ => true
  | String x a', String y b' =>
      (code x <? code y)%N || ((code x =? code y)%N && stringLt a' b')
  end.

Definition defaultCompare (x y : string) : number :=
  if stringLt x y then Num (-1)
  else if stringLt y x then Num 1
  else Num 0.

(** ** [Array.prototype.sort]

    The sort is stable, and for a consistent comparator its result is the
    one sorted arrangement that keeps equal elements in their order.  It is
    modelled as the stable insertion sort; a comparator result of NaN counts
    as zero. *)

Definition positive (n : number) : bool :=
  match n with
  | NaN => false
  | Num z => (0 <? z)%Z
  end.

Section Sort.

Context {A : Type} (compareFn : A -> A -> number).

(** The comparator lets [a] stand before [b]. *)
Definition notAfter (a b : A) : Prop := positive (compareFn a b) = false.

Fixpoint insertSorted (x : A) (l : list A) : list A :=
  match l with
  | [] => [x]
  | y :: l' =>
      if positive (compareFn x y) then y :: insertSorted x l'
      else x :: y :: l'
  end.

Fixpoint sort (l : list A) : list A :=
  match l with
  | [] => []
  | x :: l' => insertSorted x (sort l')
  end.

End Sort.

(** ** Plain objects used as dictionaries

    An object literal [{}] that the code fills by assignment: its own
    properties, in the order of their creation. *)

Definition obj (V : Type) : Type := list (string * V).

Section Obj.

Context {V : Type}.

Fixpoint get (k : string) (o : obj V) : option V :=
  match o with
  | [] => None
  | (k', v) :: o' => if String.eqb k k' then Some v else get k o'
  end.

(** [o[k] = v]: an existing property keeps its place, a new one is created
    last. *)
Fixpoint set (k : string) (v : V) (o : obj V) : obj V :=
  match o with
  | [] => [(k, v)]
  | (k', v') :: o' =>
      if String.eqb k k' then (k, v) :: o' else (k', v') :: set k v o'
  end.

(** A property name is an array index when it is the canonical decimal
    text of an integer from 0 to 2^32 - 2. *)
Definition isArrayIndex (k : string) : bool :=
  match k with
  | EmptyString => false
  | String "0" EmptyString => true
  | String "0" _ => false
  | String _ _ =>
      allChars isDigit k && (digitsValue 0 k <=? 4294967294)%Z
  end.

Fixpoint insertIndex (kv : string * V) (l : list (string * V))
  : list (string * V) :=
  match l with
  | [] => [kv]
  | kv' :: l' =>
      if (digitsValue 0 (fst kv) <? digitsValue 0 (fst kv'))%Z
      then kv :: kv' :: l'
      else kv' :: insertIndex kv l'
  end.

(** [Object.entries(o)]: the properties named by array indices first, in
    ascending numeric order, then the others in the order of creation. *)
Definition entries (o : obj V) : list (string * V) :=
  fold_right insertIndex [] (filter (fun kv => isArrayIndex (fst kv)) o)
  ++ filter (fun kv => negb (isArrayIndex (fst kv))) o.

(** [Object.fromEntries(l)] *)
Definition fromEntries (l : list (string * V)) : obj V :=
  fold_left (fun o kv => set (fst kv) (snd kv) o) l [].

End Obj.

(** [o || []] for a value read from a dictionary of arrays or of
    dictionaries. *)
Definition orEmpty {X : Type} (o : option (list X)) : list X :=
  match o with Some l => l | None => [] end.

(** What is found under the values of a dictionary, [f] telling what is
    found under one value. *)
Definition flat {V X : Type} (f : V -> list X) (o : obj V) : list X :=
  concat (map (fun e => f (snd e)) o).

(** The property names that every plain object inherits from
    [Object.prototype]; reading one of them from a dictionary yields a
    built-in function or object, not [undefined]. *)
Definition inheritedKeys : list string :=
  ["constructor"; "__defineGetter__"; "__defineSetter__"; "hasOwnProperty";
   "__lookupGetter__"; "__lookupSetter__"; "isPrototypeOf";
   "propertyIsEnumerable"; "toString"; "valueOf"; "__proto__";
   "toLocaleString"].

Definition inherited (k : string) : bool :=
  existsb (String.eqb k) inheritedKeys.

Definition nl : string := String "010" EmptyString.

(** ** [Array.prototype.splice], as the source uses it

    [l.splice(start, 1)] takes the element at [start] out, if there is one,
    and returns it; [l.splice(at, 0, x)] puts [x] in before position [at],
    at the end when [at] is beyond it.  Indices are those of a drag, never
    negative. *)

Definition spliceOut {A : Type} (start : nat) (l : list A) : option A * list A :=
  (nth_error l start, (firstn start l ++ skipn (S start) l)%list).

Definition spliceIn {A : Type} (at_ : nat) (x : A) (l : list A) : list A :=
  (firstn at_ l ++ x :: skipn at_ l)%list.

End JS.

(* ===================================================================== *)
(** * TableSelector.tsx: classification of a table name                   *)
(* ===================================================================== *)

Module TableSelector.

Record ParsedTable : Type := {
  name : string;
  year : option string;
  month : option string;
  day : option string;
  type : option string
}.

Definition parseTableName (table : string) : ParsedTable :=
  let parts := JS.split "_" table in
  let result := {| name := table; year := None; month := None;
                   day := None; type := None |} in
  if (3 <=? List.length parts)%nat then
    match parts with
    | year :: month :: day :: rest =>
        if negb (JS.isNaN_Number year) && negb (JS.isNaN_Number month)
           && negb (JS.isNaN_Number day)
        then {| name := table; year := Some year; month := Some month;
                day := Some day; type := Some (JS.join "_" rest) |}
        else result
    | _ => result
    end
  else result.

(** The result "carries the date fields". *)
Definition dated (p : ParsedTable) : bool :=
  match year p, month p, day p, type p with
  | Some _, Some _, Some _, Some _ => true
  | _, _, _, _ => false
  end.

(** The design document's test on a segment: a strict non-negative
    integer, one or more decimal digits and nothing else. *)
Definition strictNonNegativeInteger (s : string) : bool :=
  JS.nonEmpty s && JS.allChars JS.isDigit s.

(** ** The list shown in the dialog *)

(** [`${o}`] for an optional string: an absent property is interpolated as
    ["undefined"]. *)
Definition showOptional (o : option string) : string :=
  match o with
  | Some s => s
  | None => "undefined"
  end.

(** Truthiness of [table.year]. *)
Definition hasYear (p : ParsedTable) : bool :=
  match year p with
  | Some y => JS.nonEmpty y
  | None => false
  end.

(** The callback of [filter]: the search text, lower-cased, is looked for in
    the lower-cased name, in the lower-cased type when there is one, and in
    [year-month-day] as interpolated. *)
Definition matchesSearch (search : string) (table : ParsedTable) : bool :=
  let searchLower := JS.toLowerCase search in
  JS.includes (JS.toLowerCase (name table)) searchLower
  || match type table with
     | Some t => JS.includes (JS.toLowerCase t) searchLower
     | None => false
     end
  || JS.includes (showOptional (year table) ++ "-" ++ showOptional (month table)
                  ++ "-" ++ showOptional (day table)) searchLower.

Section Locale.

Variable localeCompare : string -> string -> Z.

(** The comparator of [sort]: two dated tables compare by name, reversed;
    any other pair by name. *)
Definition compareTables (a b : ParsedTable) : JS.number :=
  if hasYear a && hasYear b then JS.Num (localeCompare (name b) (name a))
  else JS.Num (localeCompare (name a) (name b)).

Definition filteredTables (tables : list string) (search : string)
  : list ParsedTable :=
  JS.sort compareTables
          (filter (matchesSearch search) (map parseTableName tables)).

End Locale.

(** [table.type || table.name], the text of a row. *)
Definition rowLabel (table : ParsedTable) : string :=
  match type table with
  | Some t => if JS.nonEmpty t then t else name table
  | None => name table
  end.

(** ** Keyboard navigation

    The [keydown] handler closes over [isOpen], [filteredTables] and
    [selectedIndex]; it returns the next [selectedIndex] and the calls it
    makes to [onSelect] and [onClose], in order. *)

Inductive Key : Type := ArrowDown | ArrowUp | Enter | Escape | OtherKey.

Inductive Call : Type :=
| OnSelect (table : string)
| OnClose.

(** [array[i]] for a number [i]: [undefined] outside the array. *)
Definition at_ {A : Type} (l : list A) (i : Z) : option A :=
  if (i <? 0)%Z then None else nth_error l (Z.to_nat i).

Definition handler (isOpen : bool) (filteredTables : list ParsedTable)
    (selectedIndex : Z) (key : Key) : Z * list Call :=
  if negb isOpen then (selectedIndex, [])
  else
    match key with
    | ArrowDown =>
        (Z.min (selectedIndex + 1)
               (Z.of_nat (List.length filteredTables) - 1), [])
    | ArrowUp => (Z.max (selectedIndex - 1) 0, [])
    | Enter =>
        match at_ filteredTables selectedIndex with
        | Some table => (selectedIndex, [OnSelect (name table); OnClose])
        | None => (selectedIndex, [])
        end
    | Escape => (selectedIndex, [OnClose])
    | OtherKey => (selectedIndex, [])
    end.

(** A run of key presses on an unchanged list: the index after them and all
    the calls made. *)
Fixpoint pressAll (isOpen : bool) (filteredTables : list ParsedTable)
    (selectedIndex : Z) (keys : list Key) : Z * list Call :=
  match keys with
  | [] => (selectedIndex, [])
  | key :: rest =>
      let (i, calls) := handler isOpen filteredTables selectedIndex key in
      let (j, calls') := pressAll isOpen filteredTables i rest in
      (j, (calls ++ calls')%list)
  end.

End TableSelector.

(* ===================================================================== *)
(** * TableSelector.tsx: the QueryBuilder component                       *)
(* ===================================================================== *)

Module QueryBuilder.

(** ** The state model ([types.d.ts]) *)

Inductive AggregationType : Type :=
| COUNT | SUM | AVG | MIN | MAX | GROUP_CONCAT.

Record QueryField : Type := {
  fieldName : string;
  alias : option string;
  tableAlias : option string;
  expression : option string;
  aggregation : option AggregationType
}.

Inductive JoinType : Type := INNER | LEFT | RIGHT | FULL.

Inductive ComparisonOperator : Type :=
| OpEq | OpNe | OpGt | OpLt | OpGe | OpLe | LIKE | IN.

Record JoinCondition : Type := {
  leftField : string;
  rightField : string;
  joinOperator : ComparisonOperator
}.

Record JoinClause : Type := {
  joinType : JoinType;
  joinTable : string;
  joinTableAlias : string;
  joinConditions : list JoinCondition
}.

(** The values a condition compares with ([value: any]): the JSON scalars,
    [undefined], and arrays of them. *)
Inductive value : Type :=
| VUndefined
| VNull
| VBool (b : bool)
| VNumber (n : JS.number)
| VString (s : string)
| VArray (items : list value).

Inductive Conjunction : Type := AND | OR.

Record WhereCondition : Type := {
  field : string;
  operator : ComparisonOperator;
  condValue : value;
  isField : option bool
}.

Record WhereClause : Type := {
  conditions : list WhereCondition;
  conjunction : Conjunction
}.

Record GroupByClause : Type := {
  fields : list string;
  having : option WhereClause
}.

Inductive Direction : Type := ASC | DESC.

Record OrderByClause : Type := {
  orderField : string;
  direction : Direction
}.

Record QueryBuilderState : Type := {
  selectedFields : list QueryField;
  joins : list JoinClause;
  where_ : option WhereClause;
  groupBy : option GroupByClause;
  orderBy : option (list OrderByClause);
  limit : option JS.number;
  offset : option JS.number;
  distinct : bool
}.

(** ** Conversions to text *)

Definition showJoinType (t : JoinType) : string :=
  match t with
  | INNER => "INNER" | LEFT => "LEFT" | RIGHT => "RIGHT" | FULL => "FULL"
  end.

Definition showOperator (o : ComparisonOperator) : string :=
  match o with
  | OpEq => "=" | OpNe => "!=" | OpGt => ">" | OpLt => "<"
  | OpGe => ">=" | OpLe => "<=" | LIKE => "LIKE" | IN => "IN"
  end.

Definition showConjunction (c : Conjunction) : string :=
  match c with AND => "AND" | OR => "OR" end.

Definition showDirection (d : Direction) : string :=
  match d with ASC => "ASC" | DESC => "DESC" end.

(** [String(n)] for NaN and for the safe integers, which print in plain
    decimal digits.  (The source prints an integer from 10^21 on with an
    exponent; the properties that print a number assume
    [JS.isSafeInteger].) *)
Definition showNumber (n : JS.number) : string :=
  match n with
  | JS.NaN => "NaN"
  | JS.Num z => DecimalString.NilEmpty.string_of_int (Z.to_int z)
  end.

(** Interpolation of a value into a template literal. *)
Fixpoint toString (v : value) : string :=
  match v with
  | VUndefined => "undefined"
  | VNull => "null"
  | VBool true => "true"
  | VBool false => "false"
  | VNumber n => showNumber n
  | VString s => s
  | VArray items =>
      JS.join ","
        (map (fun item =>
                match item with
                | VUndefined | VNull => ""
                | _ => toString item
                end) items)
  end.

Definition hexDigit (n : N) : ascii :=
  if (n <? 10)%N then ascii_of_N (48 + n) else ascii_of_N (87 + n).

(** QuoteJSONString, one character at a time. *)
Definition quoteChar (c : ascii) : string :=
  let n := JS.code c in
  if (n =? 8)%N then "\b"
  else if (n =? 9)%N then "\t"
  else if (n =? 10)%N then "\n"
  else if (n =? 12)%N then "\f"
  else if (n =? 13)%N then "\r"
  else if (n =? 34)%N then String "\" (String c EmptyString)
  else if (n =? 92)%N then "\\"
  else if (n <? 32)%N then
    "\u00" ++ String (hexDigit (n / 16)) (String (hexDigit (n mod 16)) EmptyString)
  else String c EmptyString.

Fixpoint quoteChars (s : string) : string :=
  match s with
  | EmptyString => EmptyString
  | String c s' => quoteChar c ++ quoteChars s'
  end.

Definition doubleQuote : string := String (ascii_of_N 34) EmptyString.

Definition quoteJSONString (s : string) : string :=
  doubleQuote ++ quoteChars s ++ doubleQuote.

(** [JSON.stringify(v)], interpolated: [undefined] yields no text of its
    own and is interpolated as ["undefined"]; NaN is written [null]. *)
Fixpoint stringifyInner (v : value) : string :=
  match v with
  | VUndefined => "null"
  | VNull => "null"
  | VBool true => "true"
  | VBool false => "false"
  | VNumber JS.NaN => "null"
  | VNumber n => showNumber n
  | VString s => quoteJSONString s
  | VArray items => "[" ++ JS.join "," (map stringifyInner items) ++ "]"
  end.

Definition JSON_stringify (v : value) : string :=
  match v with
  | VUndefined => "undefined"
  | _ => stringifyInner v
  end.

(** Truthiness of an optional string, boolean and number property. *)
Definition truthyString (o : option string) : bool :=
  match o with
  | Some s => JS.nonEmpty s
  | None => false
  end.

Definition truthyBool (o : option bool) : bool :=
  match o with
  | Some b => b
  | None => false
  end.

Definition truthyNumber (o : option JS.number) : bool :=
  match o with
  | Some n => JS.truthy n
  | None => false
  end.

(** [o || d] for an optional string. *)
Definition orElse (o : option string) (d : string) : string :=
  match o with
  | Some s => if JS.nonEmpty s then s else d
  | None => d
  end.

(** [`${o}`] for an optional number. *)
Definition showOptNumber (o : option JS.number) : string :=
  match o with
  | Some n => showNumber n
  | None => "undefined"
  end.

(** ** updateQueryFromState *)

Definition fieldRef (f : QueryField) : string :=
  if truthyString (tableAlias f)
  then orElse (tableAlias f) "" ++ "." ++ fieldName f
  else fieldName f.

Definition fieldAlias (f : QueryField) : string :=
  orElse (alias f) (fieldName f ++ "_" ++ orElse (tableAlias f) "main").

Definition renderField (autoAlias : bool) (f : QueryField) : string :=
  if autoAlias then fieldRef f ++ " AS " ++ fieldAlias f else fieldRef f.

Definition fieldList (autoAlias : bool) (fs : list QueryField) : string :=
  JS.join ("," ++ JS.nl ++ "  ") (map (renderField autoAlias) fs).

Definition renderJoinCondition (c : JoinCondition) : string :=
  leftField c ++ " " ++ showOperator (joinOperator c) ++ " " ++ rightField c.

Definition renderJoin (j : JoinClause) : string :=
  showJoinType (joinType j) ++ " JOIN " ++ joinTable j ++ " AS "
  ++ joinTableAlias j ++ " ON "
  ++ JS.join " AND " (map renderJoinCondition (joinConditions j)).

Definition renderCondition (c : WhereCondition) : string :=
  field c ++ " " ++ showOperator (operator c) ++ " "
  ++ (if truthyBool (isField c) then toString (condValue c)
      else JSON_stringify (condValue c)).

Definition renderConditions (w : WhereClause) : string :=
  JS.join (" " ++ showConjunction (conjunction w) ++ " ")
          (map renderCondition (conditions w)).

Definition renderOrder (o : OrderByClause) : string :=
  orderField o ++ " " ++ showDirection (direction o).

Definition joinsText (newState : QueryBuilderState) : string :=
  match joins newState with
  | [] => ""
  | js => JS.nl ++ JS.join JS.nl (map renderJoin js)
  end.

Definition whereText (newState : QueryBuilderState) : string :=
  match where_ newState with
  | Some w =>
      match conditions w with
      | [] => ""
      | _ => JS.nl ++ "WHERE " ++ renderConditions w
      end
  | None => ""
  end.

Definition groupByText (newState : QueryBuilderState) : string :=
  match groupBy newState with
  | Some g =>
      match fields g with
      | [] => ""
      | fs =>
          JS.nl ++ "GROUP BY " ++ JS.join ", " fs
          ++ match having g with
             | Some h => JS.nl ++ "HAVING " ++ renderConditions h
             | None => ""
             end
      end
  | None => ""
  end.

Definition orderByText (newState : QueryBuilderState) : string :=
  match orderBy newState with
  | Some [] => ""
  | Some os => JS.nl ++ "ORDER BY " ++ JS.join ", " (map renderOrder os)
  | None => ""
  end.

Definition limitText (newState : QueryBuilderState) : string :=
  if truthyNumber (limit newState) then
    JS.nl ++ "LIMIT " ++ showOptNumber (limit newState)
    ++ (if truthyNumber (offset newState)
        then JS.nl ++ "OFFSET " ++ showOptNumber (offset newState)
        else "")
  else "".

(** The callback closes over the component's current [state] and
    [autoAlias]; it is applied to [newState].  It returns the text handed to
    [onQueryChange] and, when it gets that far, the state handed to
    [onStateChange]. *)
Definition updateQueryFromState
    (state : QueryBuilderState) (autoAlias : bool)
    (newState : QueryBuilderState) : string * option QueryBuilderState :=
  match selectedFields newState with
  | [] => ("", None)
  | fs =>
      let query :=
        "SELECT" ++ (if distinct state then " DISTINCT" else "")
        ++ JS.nl ++ "  " ++ fieldList autoAlias fs ++ JS.nl ++ "FROM ${TABLE}" in
      let query := query ++ joinsText newState in
      let query := query ++ whereText newState in
      let query := query ++ groupByText newState in
      let query := query ++ orderByText newState in
      let query := query ++ limitText newState in
      (query, Some newState)
  end.

(** ** The handlers of the component

    Each handler computes the next state, stores it with [setState] and
    calls [updateQueryFromState], which still closes over the state of the
    current render.  A handler returns the stored state and the report. *)

Definition withSelectedFields (fs : list QueryField) (s : QueryBuilderState)
  : QueryBuilderState :=
  {| selectedFields := fs; joins := joins s; where_ := where_ s;
     groupBy := groupBy s; orderBy := orderBy s; limit := limit s;
     offset := offset s; distinct := distinct s |}.

Definition withDistinct (d : bool) (s : QueryBuilderState) : QueryBuilderState :=
  {| selectedFields := selectedFields s; joins := joins s; where_ := where_ s;
     groupBy := groupBy s; orderBy := orderBy s; limit := limit s;
     offset := offset s; distinct := d |}.

Definition handleFieldSelect (state : QueryBuilderState) (autoAlias : bool)
    (f : QueryField)
  : QueryBuilderState * (string * option QueryBuilderState) :=
  let newState := withSelectedFields (selectedFields state ++ [f])%list state in
  (newState, updateQueryFromState state autoAlias newState).

Definition handleFieldRemove (state : QueryBuilderState) (autoAlias : bool)
    (name : string)
  : QueryBuilderState * (string * option QueryBuilderState) :=
  let newState :=
    withSelectedFields
      (filter (fun f => negb (String.eqb (fieldName f) name))
              (selectedFields state)) state in
  (newState, updateQueryFromState state autoAlias newState).

(** The [onChange] of the Distinct switch. *)
Definition onDistinctChange (state : QueryBuilderState) (autoAlias : bool)
    (checked : bool)
  : QueryBuilderState * (string * option QueryBuilderState) :=
  let newState := withDistinct checked state in
  (newState, updateQueryFromState state autoAlias newState).

(** The initial state of the component when no [initialState] is given. *)
Definition emptyState : QueryBuilderState :=
  {| selectedFields := []; joins := []; where_ := None; groupBy := None;
     orderBy := None; limit := None; offset := None; distinct := false |}.

Definition plainField (name : string) : QueryField :=
  {| fieldName := name; alias := None; tableAlias := None;
     expression := None; aggregation := None |}.

(** The state with [limit] and [offset] left out. *)
Definition withoutLimit (s : QueryBuilderState) : QueryBuilderState :=
  {| selectedFields := selectedFields s; joins := joins s; where_ := where_ s;
     groupBy := groupBy s; orderBy := orderBy s; limit := None;
     offset := None; distinct := distinct s |}.

(** The key that decides the synthesized alias of a field: its name and its
    table alias, ["main"] when it has none or an empty one. *)
Definition aliasKey (f : QueryField) : string * string :=
  (fieldName f, orElse (tableAlias f) "main").

(** The field gets a synthesized alias whose two parts can be told apart. *)
Definition synthesizes (f : QueryField) : Prop :=
  truthyString (alias f) = false
  /\ JS.includes (orElse (tableAlias f) "main") "_" = false.

(** ** More handlers of the component *)

(** [handleFieldReorder], called with the indices of a drag: the field at
    [startIndex] is taken out with [splice] and put back at [endIndex]
    (at the end when [endIndex] is beyond it).  When there is no field at
    [startIndex], [removed] is [undefined], an [undefined] entry is stored in
    the selection and the compile throws a TypeError on it: [None]. *)
Definition handleFieldReorder (state : QueryBuilderState) (autoAlias : bool)
    (startIndex endIndex : nat)
  : option (QueryBuilderState * (string * option QueryBuilderState)) :=
  let newFields := selectedFields state in
  match JS.spliceOut startIndex newFields with
  | (Some removed, newFields) =>
      let newFields := JS.spliceIn endIndex removed newFields in
      let newState := withSelectedFields newFields state in
      Some (newState, updateQueryFromState state autoAlias newState)
  | (None, _) => None
  end.

(** The [onChange] of the Auto-alias switch: the new setting is stored and
    the current state is compiled by the callback of the current render. *)
Definition onAutoAliasChange (state : QueryBuilderState) (autoAlias : bool)
    (checked : bool) : bool * (string * option QueryBuilderState) :=
  (checked, updateQueryFromState state autoAlias state).

(** [FieldSelector.tsx]: a field of the schema shows the Remove button when
    some selected field has its name, and the Add button if not. *)
Definition isSelected (selectedFields : list QueryField) (name : string) : bool :=
  existsb (fun sf => String.eqb (fieldName sf) name) selectedFields.

(** A click on the button of the schema field [name]. *)
Definition clickField (state : QueryBuilderState) (autoAlias : bool)
    (name : string)
  : QueryBuilderState * (string * option QueryBuilderState) :=
  if isSelected (selectedFields state) name
  then handleFieldRemove state autoAlias name
  else handleFieldSelect state autoAlias (plainField name).






(** The state without the clauses that compile to nothing: a [where]
    without conditions, a [groupBy] without fields, an empty [orderBy]. *)
Definition dropEmptyClauses (s : QueryBuilderState) : QueryBuilderState :=
  {| selectedFields := selectedFields s;
     joins := joins s;
     where_ := match where_ s with
               | Some w => match conditions w with [] => None | _ => Some w end
               | None => None
               end;
     groupBy := match groupBy s with
                | Some g => match fields g with [] => None | _ => Some g end
                | None => None
                end;
     orderBy := match orderBy s with
                | Some [] => None
                | o => o
                end;
     limit := limit s; offset := offset s; distinct := distinct s |}.

End QueryBuilder.

(* ===================================================================== *)
(** * Explorer.tsx: grouping of names and insertion of a field            *)
(* ===================================================================== *)

Module Explorer.

Record TableGroup : Type := {
  year : string;
  months : JS.obj (list string)
}.

Record DatasetGroup : Type := {
  category : string;
  datasets : list string
}.

(** ** groupTablesByDate *)

(** The body of the [forEach] for a table of at least three segments:
    [groups[year]] and [groups[year][month]] are created when they are
    missing and the table is pushed.  The two tests read through the
    prototype chain.  When [year] names a property inherited from
    [Object.prototype], [groups[year]] is a built-in object of the host: the
    table is stored on it and missing from the groups returned, or the push
    throws, as the properties of that object decide.  When only [month]
    does, [groups[year][month]] is a built-in function or object that has no
    [push], and the call throws.
    These runs are outside the dictionary model, which answers [None] for
    them: [None] does not say that the call fails, and the properties of
    [groupTablesByDate] are stated for tables without such segments
    ([plainSegments]).  [Object.prototype] is taken to hold its standard
    properties only. *)
Definition pushTable (groups : JS.obj (JS.obj (list string)))
    (year month table : string) : option (JS.obj (JS.obj (list string))) :=
  if JS.inherited year || JS.inherited month then None
  else
    let groups :=
      match JS.get year groups with
      | None => JS.set year [] groups
      | Some _ => groups
      end in
    let byMonth :=
      match JS.get year groups with
      | Some ms => ms
      | None => []
      end in
    let byMonth :=
      match JS.get month byMonth with
      | None => JS.set month [] byMonth
      | Some _ => byMonth
      end in
    let tables :=
      match JS.get month byMonth with
      | Some ts => ts
      | None => []
      end in
    Some (JS.set year (JS.set month (tables ++ [table])%list byMonth) groups).

Definition addTable (groups : JS.obj (JS.obj (list string))) (table : string)
  : option (JS.obj (JS.obj (list string))) :=
  let parts := JS.split "_" table in
  if (3 <=? List.length parts)%nat then
    let year := nth 0 parts "" in
    let month := nth 1 parts "" in
    pushTable groups year month table
  else Some groups.

Fixpoint forEachTable (tables : list string)
    (groups : JS.obj (JS.obj (list string)))
  : option (JS.obj (JS.obj (list string))) :=
  match tables with
  | [] => Some groups
  | table :: rest =>
      match addTable groups table with
      | Some groups' => forEachTable rest groups'
      | None => None
      end
  end.

Definition compareMonths (a b : string * list string) : JS.number :=
  let monthA := JS.parseInt10 (fst a) in
  let monthB := JS.parseInt10 (fst b) in
  JS.sub monthB monthA.

Section Locale.

(** [a.localeCompare(b)] is the host's collation; the code is modelled for
    any such comparison. *)
Variable localeCompare : string -> string -> Z.

Definition compareYears {V : Type} (a b : string * V) : JS.number :=
  JS.Num (localeCompare (fst b) (fst a)).

Definition groupTablesByDate (tables : option (list string))
  : option (list TableGroup) :=
  match tables with
  | None => Some []
  | Some tables =>
      match forEachTable tables [] with
      | None => None
      | Some groups =>
          Some (map (fun entry =>
                       {| year := fst entry;
                          months :=
                            JS.fromEntries
                              (JS.sort compareMonths (JS.entries (snd entry))) |})
                    (JS.sort compareYears (JS.entries groups)))
      end
  end.

(** ** groupDatasets *)

Definition prefixMap : JS.obj string :=
  [("docker_listings", "Docker Listings");
   ("docker_product", "Docker Products");
   ("docker_sellers", "Docker Sellers");
   ("ck", "Card Kingdom");
   ("fab", "Flesh and Blood");
   ("mtg", "Magic the Gathering");
   ("poke", "Pokemon");
   ("ban", "BAN");
   ("yugi", "Yu-Gi-Oh!");
   ("yugioh", "Yu-Gi-Oh!")].

(** The [for ... of] loop with its [break]. *)
Fixpoint firstMatch (dataset : string) (mapping : list (string * string))
  : option string :=
  match mapping with
  | [] => None
  | (prefix, categoryName) :: rest =>
      if JS.startsWith dataset prefix then Some categoryName
      else firstMatch dataset rest
  end.

Definition capitalize (prefix : string) : string :=
  JS.toUpperCase (JS.charAt0 prefix) ++ JS.slice1 prefix.

Definition categoryOf (dataset : string) : string :=
  match firstMatch dataset (JS.entries prefixMap) with
  | Some categoryName => categoryName
  | None =>
      if JS.includes dataset "_"
      then capitalize (nth 0 (JS.split "_" dataset) "")
      else "Other"
  end.

(** [groups[category]] is created when missing and the dataset is pushed.
    No category is a name inherited from [Object.prototype]
    ([categoryOf_not_inherited]), so only own properties are read. *)
Definition addDataset (groups : JS.obj (list string)) (dataset : string)
  : JS.obj (list string) :=
  let category := categoryOf dataset in
  let groups :=
    match JS.get category groups with
    | None => JS.set category [] groups
    | Some _ => groups
    end in
  let members :=
    match JS.get category groups with
    | Some ds => ds
    | None => []
    end in
  JS.set category (members ++ [dataset])%list groups.

Definition compareCategories {V : Type} (a b : string * V) : JS.number :=
  if String.eqb (fst a) "Other" then JS.Num 1
  else if String.eqb (fst b) "Other" then JS.Num (-1)
  else JS.Num (localeCompare (fst a) (fst b)).

Definition groupDatasets (datasets : option (list string)) : list DatasetGroup :=
  match datasets with
  | None => []
  | Some datasets =>
      let groups := fold_left addDataset datasets [] in
      map (fun entry =>
             {| category := fst entry;
                datasets := JS.sort JS.defaultCompare (snd entry) |})
          (JS.sort compareCategories (JS.entries groups))
  end.

End Locale.

(** ** insertFieldIntoQuery

    The callback closes over [query], [selectedDataset] and
    [selectedTable]; it returns the text handed to [setQuery]. *)

(** The constant [prefix] of the callback; an absent or empty dataset or
    table is falsy. *)
Definition prefixOf (selectedDataset selectedTable : option string) : string :=
  match selectedDataset, selectedTable with
  | Some d, Some t =>
      if JS.nonEmpty d && JS.nonEmpty t then "`" ++ d ++ "." ++ t ++ "`"
      else ""
  | _, _ => ""
  end.

Definition insertFieldIntoQuery (query : string)
    (selectedDataset selectedTable : option string) (fieldName : string)
  : string :=
  let prefix := prefixOf selectedDataset selectedTable in
  let isNewSelect := negb (JS.includes (JS.toLowerCase query) "select") in
  let hasExistingFields :=
    JS.includes (JS.toLowerCase query) "select"
    && negb (JS.endsWith (JS.trim (JS.toLowerCase query)) "select") in
  if (0 <? String.length query)%nat then
    if isNewSelect then "SELECT " ++ prefix ++ "." ++ fieldName
    else if hasExistingFields
         then query ++ "," ++ JS.nl ++ "  " ++ prefix ++ "." ++ fieldName
         else query ++ " " ++ prefix ++ "." ++ fieldName
  else "SELECT " ++ prefix ++ "." ++ fieldName.

(** ** getMonthName *)

Definition MONTHS : list string :=
  ["January"; "February"; "March"; "April"; "May"; "June";
   "July"; "August"; "September"; "October"; "November"; "December"].

(** [MONTHS[n]] for a number [n]: [undefined] for NaN and outside the
    array. *)
Definition monthAt (n : JS.number) : option string :=
  match n with
  | JS.NaN => None
  | JS.Num z => if (z <? 0)%Z then None else nth_error MONTHS (Z.to_nat z)
  end.

Definition getMonthName (monthNum : string) : string :=
  let num := JS.parseInt10 monthNum in
  let monthName := monthAt (JS.sub num (JS.Num 1)) in
  match monthName with
  | Some name => name
  | None => monthNum
  end.

(** ** Notions used in the properties *)

(** *** The words of the design document about the dataset groups *)



(** A collation is consistent when it compares as a total preorder. *)
Definition consistentCollation (localeCompare : string -> string -> Z) : Prop :=
  (forall a b, (localeCompare a b < 0)%Z <-> (0 < localeCompare b a)%Z)
  /\ (forall a b c, (localeCompare a b <= 0)%Z -> (localeCompare b c <= 0)%Z ->
                    (localeCompare a c <= 0)%Z).




(** Ascending code-unit order, the default order of [sort()]. *)
Definition codeUnitLe (a b : string) : Prop := JS.stringLt b a = false.

(** The collation by code units, one consistent collation. *)
Definition codeUnitCompare (a b : string) : Z :=
  if JS.stringLt a b then (-1)%Z
  else if JS.stringLt b a then 1%Z
  else 0%Z.



(** The tables stored in the dictionary of years and months. *)
Definition tablesIn (groups : JS.obj (JS.obj (list string))) : list string :=
  JS.flat (JS.flat (fun ts => ts)) groups.

(** No property name occurs twice, neither among the years nor among the
    months of a year. *)
Definition wellFormed (groups : JS.obj (JS.obj (list string))) : Prop :=
  NoDup (map fst groups)
  /\ Forall (fun e => NoDup (map fst (snd e))) groups.

(** The year and month segments of the table, if it has them, are not names
    inherited from [Object.prototype]. *)
Definition plainSegments (table : string) : bool :=
  let parts := JS.split "_" table in
  if (3 <=? List.length parts)%nat
  then negb (JS.inherited (nth 0 parts "") || JS.inherited (nth 1 parts ""))
  else true.

(** The tables shown somewhere under the groups. *)
Definition tablesOf (groups : list TableGroup) : list string :=
  concat (map (fun g => concat (map snd (JS.entries (months g)))) groups).

(** The tables of [seen] that have at least three segments. *)
Definition datedLooking (table : string) : bool :=
  (3 <=? List.length (JS.split "_" table))%nat.

(** The tables of [seen] whose first two segments are [year] and [month],
    in their order. *)
Definition tablesOfMonth (year month : string) (seen : list string)
  : list string :=
  filter (fun t => datedLooking t
                   && String.eqb (nth 0 (JS.split "_" t) "") year
                   && String.eqb (nth 1 (JS.split "_" t) "") month) seen.

(** The dictionary of years and months holds the tables seen so far, each
    under its year and month and in the order seen. *)
Definition groupedByDate (groups : JS.obj (JS.obj (list string)))
    (seen : list string) : Prop :=
  NoDup (map fst groups)
  /\ (forall y ms, In (y, ms) groups ->
        NoDup (map fst ms)
        /\ forall m ts, In (m, ts) ms ->
                        ts = tablesOfMonth y m seen /\ ts <> [])
  /\ (forall t, In t seen -> datedLooking t = true ->
        exists ms, JS.get (nth 0 (JS.split "_" t) "") groups = Some ms
                   /\ JS.get (nth 1 (JS.split "_" t) "") ms <> None).

(** The number a month name sorts by, when it has one. *)
Definition monthValue (month : string) : Z :=
  match JS.parseInt10 month with
  | JS.Num z => z
  | JS.NaN => 0%Z
  end.

(** Fields inserted one after the other, each into the text that the
    insertion before it stored. *)
Definition insertAll (query : string)
    (selectedDataset selectedTable : option string) (fieldNames : list string)
  : string :=
  fold_left (fun q f => insertFieldIntoQuery q selectedDataset selectedTable f)
            fieldNames query.

(** *** The words of the design document about a query text *)

(** The text contains the keyword, in any letter case. *)
Definition containsSelect (query : string) : Prop :=
  exists before after, JS.toLowerCase query = before ++ "select" ++ after.

(** The trimmed text ends with the keyword, in any letter case. *)
Definition trimmedEndsWithSelect (query : string) : Prop :=
  exists before, JS.trim (JS.toLowerCase query) = before ++ "select".

Definition isLetter (c : ascii) : bool := JS.isUpper c || JS.isLower c.

(** An occurrence between [before] and [after] lies inside a longer word
    when a letter precedes or follows it. *)
Definition insideLongerWord (before after : string) : Prop :=
  (exists b c, before = b ++ String c EmptyString /\ isLetter c = true)
  \/ (exists c a, after = String c a /\ isLetter c = true).

Definition selectOnlyInsideWords (text : string) : Prop :=
  forall before after,
    text = before ++ "select" ++ after -> insideLongerWord before after.

End Explorer.

(* ===================================================================== *)
(** * Properties                                                          *)
(* ===================================================================== *)

(** ** Characters and strings *)

Lemma append_nil_r (s : string) : s ++ "" = s.
Proof. induction s as [|c s IH]; simpl; [reflexivity | now rewrite IH]. Qed.

Lemma append_assoc (a b c : string) : (a ++ b) ++ c = a ++ (b ++ c).
Proof. induction a as [|x a IH]; simpl; [reflexivity | now rewrite IH]. Qed.

Lemma digit_not_space c : JS.isDigit c = true -> JS.isWhiteSpace c = false.
Proof.
  unfold JS.isDigit, JS.isWhiteSpace, JS.code; intros H.
  apply andb_true_iff in H as [H1 H2].
  apply N.leb_le in H1, H2.
  repeat rewrite orb_false_iff; repeat split.
  - apply andb_false_iff; right. apply N.leb_gt. lia.
  - apply N.eqb_neq. lia.
  - apply N.eqb_neq. lia.
Qed.

Lemma digit_cases c :
  JS.isDigit c = true ->
  In c ["0"; "1"; "2"; "3"; "4"; "5"; "6"; "7"; "8"; "9"]%char.
Proof.
  destruct c as [[] [] [] [] [] [] [] []]; vm_compute; intros H;
    try discriminate H; tauto.
Qed.

Lemma trimEnd_digits s : JS.allChars JS.isDigit s = true -> JS.trimEnd s = s.
Proof.
  induction s as [|c s IH]; simpl; intros H; [reflexivity|].
  apply andb_true_iff in H as [Hc Hs].
  rewrite (IH Hs).
  destruct s; [|reflexivity].
  now rewrite (digit_not_space _ Hc).
Qed.

Lemma skipDigits_digits s : JS.allChars JS.isDigit s = true -> JS.skipDigits s = "".
Proof.
  induction s as [|c s IH]; simpl; intros H; [reflexivity|].
  apply andb_true_iff in H as [Hc Hs].
  now rewrite Hc, IH.
Qed.

(** Every strict non-negative integer converts to a number. *)
Lemma strict_integer_is_numeric s :
  TableSelector.strictNonNegativeInteger s = true -> JS.isNaN_Number s = false.
Proof.
  unfold TableSelector.strictNonNegativeInteger; intros H.
  apply andb_true_iff in H as [Hne Hall].
  destruct s as [|c s]; [discriminate|]. clear Hne.
  pose proof Hall as Hall'. simpl in Hall'.
  apply andb_true_iff in Hall' as [Hc Hs].
  unfold JS.isNaN_Number, JS.trim.
  assert (Hts : JS.trimStart (String c s) = String c s)
    by (simpl; now rewrite (digit_not_space _ Hc)).
  rewrite Hts, (trimEnd_digits _ Hall).
  apply negb_false_iff. unfold JS.strNumericLiteral.
  apply orb_true_iff; right.
  assert (Hd : JS.decimalDigits (String c s) = Some "")
    by (simpl; now rewrite Hc, (skipDigits_digits _ Hs)).
  pose proof (digit_cases _ Hc) as Hin. simpl in Hin.
  unfold JS.strUnsignedDecimalLiteral.
  destruct (String.eqb _ "Infinity"); [reflexivity|].
  repeat (destruct Hin as [<-|Hin];
          [simpl JS.skipSign; rewrite Hd; reflexivity|]).
  contradiction.
Qed.

(** ** Substrings *)

Lemma startsWith_spec (s p : string) :
  JS.startsWith s p = true <-> exists rest, s = p ++ rest.
Proof.
  revert s. induction p as [|c p IH]; intros s; simpl.
  - split; [intros _; now exists s | reflexivity].
  - destruct s as [|d s].
    + split; [discriminate | intros [rest H]; discriminate].
    + rewrite andb_true_iff, Ascii.eqb_eq, IH. split.
      * intros [-> [rest ->]]. now exists rest.
      * intros [rest H]. injection H as -> ->. split; [reflexivity|now exists rest].
Qed.

Lemma includes_spec (s p : string) :
  JS.includes s p = true <-> exists before after, s = before ++ p ++ after.
Proof.
  induction s as [|c s IH].
  - cbn [JS.includes]. rewrite orb_false_r, startsWith_spec. split.
    + intros [rest H]. now exists "", rest.
    + intros [[|x before] [after H]]; [now exists after | discriminate].
  - cbn [JS.includes]. rewrite orb_true_iff, startsWith_spec, IH. split.
    + intros [[rest H] | (before & after & H)].
      * now exists "", rest.
      * exists (String c before), after. simpl. now rewrite H.
    + intros ([|x before] & after & H).
      * left. now exists after.
      * right. injection H as -> H. now exists before, after.
Qed.

Lemma endsWith_spec (s p : string) :
  JS.endsWith s p = true <-> exists before, s = before ++ p.
Proof.
  induction s as [|c s IH].
  - cbn [JS.endsWith]. rewrite orb_false_r, String.eqb_eq. split.
    + intros <-. now exists "".
    + intros [[|x before] H]; [assumption | discriminate].
  - cbn [JS.endsWith]. rewrite orb_true_iff, String.eqb_eq, IH. split.
    + intros [H | [before H]].
      * now exists "".
      * exists (String c before). simpl. now rewrite H.
    + intros [[|x before] H].
      * now left.
      * right. injection H as -> H. now exists before.
Qed.

Lemma trimStart_suffix (s : string) : exists a, s = a ++ JS.trimStart s.
Proof.
  induction s as [|c s [a IH]]; simpl.
  - now exists "".
  - destruct (JS.isWhiteSpace c).
    + exists (String c a). simpl. now rewrite <- IH.
    + now exists "".
Qed.

Lemma trimEnd_prefix (s : string) : exists b, s = JS.trimEnd s ++ b.
Proof.
  induction s as [|c s [b IH]]; simpl.
  - now exists "".
  - destruct (JS.trimEnd s) as [|d t].
    + destruct (JS.isWhiteSpace c).
      * exists (String c s). reflexivity.
      * exists s. reflexivity.
    + exists b. simpl. simpl in IH. now rewrite <- IH.
Qed.

Lemma trim_substring (s : string) : exists a b, s = a ++ JS.trim s ++ b.
Proof.
  destruct (trimStart_suffix s) as [a Ha].
  destruct (trimEnd_prefix (JS.trimStart s)) as [b Hb].
  exists a, b. unfold JS.trim. now rewrite <- Hb.
Qed.

(** ** Code-unit order *)

Lemma code_inj (x y : ascii) : JS.code x = JS.code y -> x = y.
Proof.
  unfold JS.code. intros H.
  rewrite <- (ascii_N_embedding x), <- (ascii_N_embedding y). now rewrite H.
Qed.

Lemma stringLt_irrefl (a : string) : JS.stringLt a a = false.
Proof.
  induction a as [|x a IH]; simpl; [reflexivity|].
  now rewrite N.ltb_irrefl, N.eqb_refl, IH.
Qed.

Lemma stringLt_trans (a b c : string) :
  JS.stringLt a b = true -> JS.stringLt b c = true -> JS.stringLt a c = true.
Proof.
  revert b c. induction a as [|x a IH]; intros [|y b] [|z c]; simpl;
    try discriminate; try reflexivity.
  rewrite !orb_true_iff, !andb_true_iff, !N.ltb_lt, !N.eqb_eq.
  intros [Hxy|[Hxy Hab]] [Hyz|[Hyz Hbc]].
  - left. lia.
  - left. lia.
  - left. lia.
  - right. split; [lia|]. eapply IH; eauto.
Qed.

Lemma stringLt_total (a b : string) :
  JS.stringLt a b = false -> JS.stringLt b a = false -> a = b.
Proof.
  revert b. induction a as [|x a IH]; intros [|y b]; simpl;
    try discriminate; try reflexivity.
  rewrite !orb_false_iff, !andb_false_iff, !N.ltb_ge, !N.eqb_neq.
  intros [Hxy Hab] [Hyx Hba].
  assert (Hc : JS.code x = JS.code y) by lia.
  apply code_inj in Hc. subst y.
  f_equal. apply IH.
  - destruct Hab as [Hab|Hab]; [congruence|assumption].
  - destruct Hba as [Hba|Hba]; [congruence|assumption].
Qed.

Lemma stringLt_asym (a b : string) :
  JS.stringLt a b = true -> JS.stringLt b a = false.
Proof.
  intros H. destruct (JS.stringLt b a) eqn:E; [|reflexivity].
  pose proof (stringLt_trans _ _ _ H E) as Haa.
  now rewrite stringLt_irrefl in Haa.
Qed.

Lemma codeUnitLe_trans (a b c : string) :
  Explorer.codeUnitLe a b -> Explorer.codeUnitLe b c -> Explorer.codeUnitLe a c.
Proof.
  unfold Explorer.codeUnitLe. intros Hba Hcb.
  destruct (JS.stringLt c a) eqn:Hca; [|reflexivity].
  destruct (JS.stringLt a b) eqn:Hab.
  - pose proof (stringLt_trans _ _ _ Hca Hab). congruence.
  - pose proof (stringLt_total _ _ Hab Hba). subst. congruence.
Qed.

Lemma codeUnitCompare_consistent :
  Explorer.consistentCollation Explorer.codeUnitCompare.
Proof.
  unfold Explorer.codeUnitCompare. split.
  - intros a b.
    destruct (JS.stringLt a b) eqn:Hab.
    + rewrite (stringLt_asym _ _ Hab). lia.
    + destruct (JS.stringLt b a) eqn:Hba; lia.
  - intros a b c Hab Hbc.
    assert (H1 : Explorer.codeUnitLe a b).
    { unfold Explorer.codeUnitLe.
      destruct (JS.stringLt a b) eqn:E; [now apply stringLt_asym|].
      destruct (JS.stringLt b a); [lia|reflexivity]. }
    assert (H2 : Explorer.codeUnitLe b c).
    { unfold Explorer.codeUnitLe.
      destruct (JS.stringLt b c) eqn:E; [now apply stringLt_asym|].
      destruct (JS.stringLt c b); [lia|reflexivity]. }
    pose proof (codeUnitLe_trans _ _ _ H1 H2) as H3.
    unfold Explorer.codeUnitLe in H3.
    destruct (JS.stringLt a c); [lia|]. rewrite H3. lia.
Qed.

(** ** Dictionaries *)

Section Dictionaries.

Context {V : Type}.

Implicit Types (o : JS.obj V) (k : string) (v : V).

Lemma get_set_same k v o : JS.get k (JS.set k v o) = Some v.
Proof.
  induction o as [|[k' v'] o IH]; simpl.
  - now rewrite String.eqb_refl.
  - destruct (String.eqb k k') eqn:E; simpl.
    + now rewrite String.eqb_refl.
    + now rewrite E.
Qed.

Lemma set_set k v w o : JS.set k v (JS.set k w o) = JS.set k v o.
Proof.
  induction o as [|[k' v'] o IH]; simpl.
  - now rewrite String.eqb_refl.
  - destruct (String.eqb k k') eqn:E; simpl.
    + now rewrite String.eqb_refl.
    + now rewrite E, IH.
Qed.

Lemma get_set_other k k' v o :
  k' <> k -> JS.get k' (JS.set k v o) = JS.get k' o.
Proof.
  intros Hne. induction o as [|[k0 v0] o IH]; simpl.
  - destruct (String.eqb_spec k' k); [contradiction|reflexivity].
  - destruct (String.eqb_spec k k0) as [->|Hk]; simpl.
    + destruct (String.eqb_spec k' k0); [contradiction|reflexivity].
    + destruct (String.eqb_spec k' k0); [reflexivity|assumption].
Qed.

Lemma get_Some_In k v o : JS.get k o = Some v -> In (k, v) o.
Proof.
  induction o as [|[k' v'] o IH]; simpl; [discriminate|].
  destruct (String.eqb_spec k k') as [->|Hne].
  - intros H. injection H as ->. now left.
  - auto.
Qed.

Lemma In_get k v o : NoDup (map fst o) -> In (k, v) o -> JS.get k o = Some v.
Proof.
  induction o as [|[k' v'] o IH]; simpl; [tauto|].
  intros Hnd [Heq|Hin].
  - injection Heq as -> ->. now rewrite String.eqb_refl.
  - inversion Hnd as [|? ? Hnotin Hnd']; subst.
    destruct (String.eqb_spec k k') as [->|Hne]; [|auto].
    exfalso. apply Hnotin. apply in_map_iff. now exists (k', v).
Qed.

Lemma set_fresh k v o : ~ In k (map fst o) -> JS.set k v o = (o ++ [(k, v)])%list.
Proof.
  induction o as [|[k' v'] o IH]; simpl; [reflexivity|].
  intros H. destruct (String.eqb_spec k k') as [->|Hne]; [tauto|].
  rewrite IH; tauto.
Qed.

Lemma In_set k v o x :
  NoDup (map fst o) ->
  In x (JS.set k v o) <-> x = (k, v) \/ (In x o /\ fst x <> k).
Proof.
  induction o as [|[k' v'] o IH]; simpl; intros Hnd.
  - intuition congruence.
  - inversion Hnd as [|? ? Hnotin Hnd']; subst.
    destruct (String.eqb_spec k k') as [->|Hne]; simpl.
    + split.
      * intros [<-|Hin]; [now left|]. right. split; [now right|].
        intros Heq. apply Hnotin. apply in_map_iff. now exists x.
      * intros [->|[[<-|Hin] Hx]]; simpl in *; tauto.
    + rewrite (IH Hnd'). split.
      * intros [<-|[->|[Hin Hx]]]; simpl; intuition congruence.
      * intros [->|[[<-|Hin] Hx]]; tauto.
Qed.

Lemma keys_set_NoDup k v o : NoDup (map fst o) -> NoDup (map fst (JS.set k v o)).
Proof.
  induction o as [|[k' v'] o IH]; simpl; intros Hnd.
  - repeat constructor. tauto.
  - inversion Hnd as [|? ? Hnotin Hnd']; subst.
    destruct (String.eqb_spec k k') as [->|Hne]; simpl.
    + now constructor.
    + constructor; [|auto].
      intros Hin. apply in_map_iff in Hin as (x & Hx & Hin).
      apply (In_set k v o x Hnd') in Hin as [->|[Hin _]].
      * simpl in Hx. congruence.
      * apply Hnotin. apply in_map_iff. now exists x.
Qed.

Lemma Forall_set (P : string * V -> Prop) k v o :
  Forall P o -> P (k, v) -> Forall P (JS.set k v o).
Proof.
  induction o as [|[k' v'] o IH]; simpl; intros Ho Hkv.
  - now constructor.
  - inversion Ho; subst.
    destruct (String.eqb k k'); constructor; auto.
Qed.

Lemma fromEntries_acc (l acc : list (string * V)) :
  NoDup (map fst (acc ++ l)%list) ->
  fold_left (fun o kv => JS.set (fst kv) (snd kv) o) l acc = (acc ++ l)%list.
Proof.
  revert acc. induction l as [|[k v] l IH]; intros acc Hnd; simpl.
  - now rewrite app_nil_r.
  - rewrite set_fresh.
    + rewrite IH; rewrite <- app_assoc; [reflexivity | exact Hnd].
    + rewrite map_app in Hnd. simpl in Hnd.
      apply NoDup_remove_2 in Hnd. intros Hin. apply Hnd.
      apply in_or_app. now left.
Qed.

(** Entries with distinct names are stored under creation as they come. *)
Lemma fromEntries_NoDup (l : list (string * V)) :
  NoDup (map fst l) -> JS.fromEntries l = l.
Proof. intros H. unfold JS.fromEntries. now rewrite fromEntries_acc. Qed.

Lemma insertIndex_perm (kv : string * V) l :
  Permutation (JS.insertIndex kv l) (kv :: l).
Proof.
  induction l as [|kv' l IH]; simpl; [reflexivity|].
  destruct (_ <? _)%Z; [reflexivity|].
  rewrite IH. apply perm_swap.
Qed.

Lemma entries_perm o : Permutation (JS.entries o) o.
Proof.
  unfold JS.entries.
  induction o as [|kv o IH]; simpl; [reflexivity|].
  destruct (JS.isArrayIndex (fst kv)); simpl.
  - rewrite insertIndex_perm. simpl. now constructor.
  - etransitivity; [symmetry; apply Permutation_middle|]. now constructor.
Qed.

Lemma In_flat {X : Type} (f : V -> list X) o (x : X) :
  In x (JS.flat f o) <-> exists e, In e o /\ In x (f (snd e)).
Proof.
  unfold JS.flat. rewrite in_concat. split.
  - intros (l & Hl & Hx). apply in_map_iff in Hl as (e & <- & He). eauto.
  - intros (e & He & Hx). exists (f (snd e)). split; [|assumption].
    apply in_map_iff. eauto.
Qed.

Lemma In_flat_perm {X : Type} (f : V -> list X) o o' (x : X) :
  Permutation o o' -> In x (JS.flat f o) <-> In x (JS.flat f o').
Proof.
  intros Hp. rewrite !In_flat. split; intros (e & He & Hx); exists e;
    (split; [|assumption]).
  - eapply Permutation_in; eauto.
  - eapply Permutation_in; [symmetry|]; eauto.
Qed.

(** Storing under [k] a value that holds what was there and [t] adds [t]
    to what the dictionary holds. *)
Lemma In_flat_set {X : Type} (f : V -> list X) k v o (t x : X) :
  NoDup (map fst o) ->
  (forall y, In y (f v)
             <-> In y (match JS.get k o with Some v0 => f v0 | None => [] end)
                 \/ y = t) ->
  In x (JS.flat f (JS.set k v o)) <-> In x (JS.flat f o) \/ x = t.
Proof.
  intros Hnd Hv. rewrite !In_flat. split.
  - intros (e & He & Hx). apply (In_set k v o e Hnd) in He as [->|[He Hk]].
    + simpl in Hx. apply Hv in Hx as [Hx| ->]; [|now right].
      left. destruct (JS.get k o) as [v0|] eqn:E; [|contradiction].
      exists (k, v0). split; [now apply get_Some_In | assumption].
    + left. eauto.
  - intros [(e & He & Hx)| ->].
    + destruct (String.eqb_spec (fst e) k) as [Hk|Hk].
      * exists (k, v). split; [apply In_set; auto|].
        simpl. apply Hv. left. destruct e as [k0 v0]. simpl in Hk; subst.
        now rewrite (In_get _ _ _ Hnd He).
      * exists e. split; [apply In_set; auto | assumption].
    + exists (k, v). split; [apply In_set; auto|].
      simpl. apply Hv. now right.
Qed.

End Dictionaries.

(** ** Sorting *)

Section SortFacts.

Context {A : Type} (compareFn : A -> A -> JS.number).

Lemma insertSorted_perm (x : A) l :
  Permutation (JS.insertSorted compareFn x l) (x :: l).
Proof.
  induction l as [|y l IH]; simpl; [reflexivity|].
  destruct (JS.positive _); [|reflexivity].
  rewrite IH. apply perm_swap.
Qed.

Lemma sort_perm l : Permutation (JS.sort compareFn l) l.
Proof.
  induction l as [|x l IH]; simpl; [reflexivity|].
  rewrite insertSorted_perm. now constructor.
Qed.

End SortFacts.

(** ** Sorted results of [sort] *)

Section SortSorted.

Context {A : Type} (compareFn : A -> A -> JS.number).

Hypothesis notAfter_trans :
  forall a b c,
    JS.notAfter compareFn a b -> JS.notAfter compareFn b c ->
    JS.notAfter compareFn a c.

Lemma insertSorted_sorted (x : A) (l : list A) :
  Forall (fun y => JS.positive (compareFn x y) = true ->
                  JS.notAfter compareFn y x) l ->
  StronglySorted (JS.notAfter compareFn) l ->
  StronglySorted (JS.notAfter compareFn) (JS.insertSorted compareFn x l).
Proof.
  induction l as [|y l IH]; intros Hasym Hs; simpl.
  - repeat constructor.
  - inversion Hasym as [|? ? Hy Hl]; subst.
    inversion Hs as [|? ? Hsl Hyl]; subst.
    destruct (JS.positive (compareFn x y)) eqn:E.
    + constructor; [auto|].
      eapply Permutation_Forall; [symmetry; apply insertSorted_perm|].
      constructor; [auto | assumption].
    + constructor; [assumption|].
      constructor; [exact E|].
      eapply Forall_impl; [|exact Hyl]. intros z Hz.
      eapply notAfter_trans; eauto.
Qed.

Lemma sort_sorted (l : list A) :
  ForallOrdPairs (fun x y => JS.positive (compareFn x y) = true ->
                            JS.notAfter compareFn y x) l ->
  StronglySorted (JS.notAfter compareFn) (JS.sort compareFn l).
Proof.
  induction l as [|x l IH]; intros H; simpl; [constructor|].
  inversion H as [|? ? Hx Hl]; subst.
  apply insertSorted_sorted; [|auto].
  eapply Permutation_Forall; [symmetry; apply sort_perm | exact Hx].
Qed.

End SortSorted.

Lemma StronglySorted_map {A B : Type} (f : A -> B) (R : B -> B -> Prop)
    (l : list A) :
  StronglySorted (fun a b => R (f a) (f b)) l -> StronglySorted R (map f l).
Proof.
  induction 1 as [|a l Hs IH Ha]; simpl; constructor; [assumption|].
  apply Forall_map. exact Ha.
Qed.

Lemma StronglySorted_impl {A : Type} (R S : A -> A -> Prop) (l : list A) :
  (forall a b, R a b -> S a b) -> StronglySorted R l -> StronglySorted S l.
Proof.
  intros HRS. induction 1 as [|a l Hs IH Ha]; constructor; [assumption|].
  eapply Forall_impl; [|exact Ha]. auto.
Qed.

Lemma filter_none {A : Type} (p : A -> bool) (l : list A) :
  (forall x, In x l -> p x = false) -> filter p l = [].
Proof.
  induction l as [|x l IH]; simpl; intros H; [reflexivity|].
  rewrite (H x (or_introl eq_refl)). auto.
Qed.



(** ** parseTableName *)

Example parseTableName_sales :
  TableSelector.parseTableName "2024_03_15_sales"
  = {| TableSelector.name := "2024_03_15_sales";
       TableSelector.year := Some "2024"; TableSelector.month := Some "03";
       TableSelector.day := Some "15"; TableSelector.type := Some "sales" |}.
Proof. reflexivity. Qed.

Example parseTableName_random_table :
  TableSelector.parseTableName "random_table"
  = {| TableSelector.name := "random_table";
       TableSelector.year := None; TableSelector.month := None;
       TableSelector.day := None; TableSelector.type := None |}.
Proof. reflexivity. Qed.

(** C1, as the design document words it, does not hold: the claim that
    [parseTableName] returns the date fields exactly when there are at least
    three segments and the first three are strict non-negative integers is
    refuted by ["2024_-3_15"], whose month segment ["-3"] is no such integer
    and which is classified as dated all the same. *)
Lemma parseTableName_not_strict_integer_test :
  ~ (forall table : string,
       TableSelector.dated (TableSelector.parseTableName table) = true <->
       3 <= List.length (JS.split "_" table) /\
       Forall (fun seg => TableSelector.strictNonNegativeInteger seg = true)
              (firstn 3 (JS.split "_" table))).
Proof.
  intros H.
  destruct (H "2024_-3_15") as [Hdated _].
  destruct (Hdated eq_refl) as [_ Hall].
  simpl in Hall.
  inversion Hall as [|? ? _ Hrest]; subst.
  inversion Hrest as [|? ? Hmonth _]; subst.
  discriminate Hmonth.
Qed.

(** C1, amended: [parseTableName] returns the date fields if and only if
    the name splits on underscore into at least three segments and each of
    the first three converts under [Number] to something other than NaN
    (which every strict non-negative integer does, and so do the empty
    segment, signed, fractional, exponent, [Infinity] and 0x/0o/0b literals
    and literals surrounded by white space).  In that case year, month and
    day are segments 0 to 2 verbatim and type is the remaining segments
    rejoined with underscore, the empty string if none remain; otherwise the
    result carries only the name. *)
Theorem parseTableName_spec (table : string) :
  let parts := JS.split "_" table in
  let p := TableSelector.parseTableName table in
  TableSelector.name p = table
  /\ (TableSelector.dated p = true <->
      3 <= List.length parts /\
      Forall (fun seg => JS.isNaN_Number seg = false) (firstn 3 parts))
  /\ (TableSelector.dated p = true ->
      TableSelector.year p = nth_error parts 0
      /\ TableSelector.month p = nth_error parts 1
      /\ TableSelector.day p = nth_error parts 2
      /\ TableSelector.type p = Some (JS.join "_" (skipn 3 parts))
      /\ (List.length parts = 3 -> TableSelector.type p = Some ""))
  /\ (TableSelector.dated p = false ->
      p = {| TableSelector.name := table;
             TableSelector.year := None; TableSelector.month := None;
             TableSelector.day := None; TableSelector.type := None |})
  /\ (3 <= List.length parts ->
      Forall (fun seg => TableSelector.strictNonNegativeInteger seg = true)
             (firstn 3 parts) ->
      TableSelector.dated p = true).
Proof.
  intros parts p. subst p. unfold TableSelector.parseTableName.
  fold parts.
  destruct parts as [|y [|m [|d rest]]]; simpl.
  1-3: repeat split; try discriminate; try reflexivity; try lia;
       intros [Hlen _]; lia.
  destruct (JS.isNaN_Number y) eqn:Hy, (JS.isNaN_Number m) eqn:Hm,
           (JS.isNaN_Number d) eqn:Hd; simpl.
  8: { repeat split; try discriminate; try reflexivity; try lia.
       - repeat constructor; assumption.
       - intros Hlen. destruct rest; [reflexivity|discriminate]. }
  all: repeat split; try discriminate; try reflexivity.
  all: try (intros [_ Hall]; inversion Hall as [|? ? H1 Hall1]; subst;
            inversion Hall1 as [|? ? H2 Hall2]; subst;
            inversion Hall2 as [|? ? H3 _]; subst; congruence).
  all: intros _ Hall; inversion Hall as [|? ? H1 Hall1]; subst;
       inversion Hall1 as [|? ? H2 Hall2]; subst;
       inversion Hall2 as [|? ? H3 _]; subst;
       apply strict_integer_is_numeric in H1, H2, H3; congruence.
Qed.

(** ** updateQueryFromState *)

Section Compilation.

Import QueryBuilder.

Variables (state : QueryBuilderState) (autoAlias : bool).

(** C7.  Whatever the other fields of the state, the closed-over state and
    the aliasing policy are, a state whose [selectedFields] is empty
    compiles to the empty string; nothing is raised and [onStateChange] is
    not notified. *)
Theorem updateQueryFromState_empty_selection (newState : QueryBuilderState) :
  selectedFields newState = [] ->
  updateQueryFromState state autoAlias newState = ("", None).
Proof.
  intros H. unfold updateQueryFromState. now rewrite H.
Qed.

(** The text of a non-empty selection, clause by clause. *)
Lemma updateQueryFromState_text (newState : QueryBuilderState) :
  selectedFields newState <> [] ->
  updateQueryFromState state autoAlias newState
  = ("SELECT" ++ (if distinct state then " DISTINCT" else "")
     ++ JS.nl ++ "  " ++ fieldList autoAlias (selectedFields newState)
     ++ JS.nl ++ "FROM ${TABLE}"
     ++ joinsText newState ++ whereText newState ++ groupByText newState
     ++ orderByText newState ++ limitText newState,
     Some newState).
Proof.
  intros H. unfold updateQueryFromState.
  destruct (selectedFields newState) as [|f fs] eqn:E; [contradiction|].
  f_equal. repeat rewrite append_assoc. reflexivity.
Qed.

(** [DISTINCT] follows [SELECT] exactly when the state the callback closed
    over has the flag, whatever the flag of the compiled state. *)
Lemma updateQueryFromState_distinct_of_closure (newState : QueryBuilderState) :
  selectedFields newState <> [] ->
  JS.startsWith (fst (updateQueryFromState state autoAlias newState))
                "SELECT DISTINCT"
  = distinct state.
Proof.
  intros H. rewrite (updateQueryFromState_text _ H).
  destruct (distinct state); reflexivity.
Qed.

End Compilation.

Lemma updateQueryFromState_empty_selection_witness :
  let newState :=
    {| QueryBuilder.selectedFields := []; QueryBuilder.joins := [];
       QueryBuilder.where_ := None; QueryBuilder.groupBy := None;
       QueryBuilder.orderBy := None;
       QueryBuilder.limit := Some (JS.Num 10);
       QueryBuilder.offset := Some (JS.Num 5);
       QueryBuilder.distinct := true |} in
  QueryBuilder.selectedFields newState = []
  /\ QueryBuilder.updateQueryFromState newState true newState = ("", None).
Proof.
  intros newState. split; [reflexivity|].
  apply (updateQueryFromState_empty_selection newState true newState).
  reflexivity.
Defined.

(** C3.  The claim is right and the code misses it: the text is built from
    [state.distinct], the flag of the state the callback closed over, and
    never from [newState.distinct].  With one field selected and Distinct
    off, switching Distinct on compiles the new state, whose flag is true,
    to a text without [DISTINCT]. *)
Theorem onDistinctChange_ignores_new_flag :
  let state :=
    QueryBuilder.withSelectedFields [QueryBuilder.plainField "id"]
                                    QueryBuilder.emptyState in
  let newState := QueryBuilder.withDistinct true state in
  QueryBuilder.distinct newState = true
  /\ QueryBuilder.onDistinctChange state true true
     = (newState,
        ("SELECT" ++ JS.nl ++ "  id AS id_main" ++ JS.nl
         ++ "FROM ${TABLE}", Some newState))
  /\ JS.includes
       (fst (snd (QueryBuilder.onDistinctChange state true true)))
       "DISTINCT" = false.
Proof. repeat split. Qed.

(** Switching Distinct off, conversely, still compiles [DISTINCT]. *)
Example onDistinctChange_off_keeps_distinct :
  let state :=
    QueryBuilder.withDistinct true
      (QueryBuilder.withSelectedFields [QueryBuilder.plainField "id"]
                                       QueryBuilder.emptyState) in
  fst (snd (QueryBuilder.onDistinctChange state true false))
  = "SELECT DISTINCT" ++ JS.nl ++ "  id AS id_main" ++ JS.nl ++ "FROM ${TABLE}".
Proof. reflexivity. Qed.

(** C6, as worded, does not hold: a [limit] that is set to [0] is set, yet
    the compiled text has no [LIMIT] anywhere. *)
Lemma limit_zero_compiles_no_limit :
  ~ (forall (state : QueryBuilder.QueryBuilderState) (autoAlias : bool)
            (newState : QueryBuilder.QueryBuilderState),
       QueryBuilder.selectedFields newState <> [] ->
       (JS.includes
          (fst (QueryBuilder.updateQueryFromState state autoAlias newState))
          "LIMIT" = true
        <-> QueryBuilder.limit newState <> None)).
Proof.
  intros H.
  pose (newState :=
    {| QueryBuilder.selectedFields := [QueryBuilder.plainField "id"];
       QueryBuilder.joins := []; QueryBuilder.where_ := None;
       QueryBuilder.groupBy := None; QueryBuilder.orderBy := None;
       QueryBuilder.limit := Some (JS.Num 0); QueryBuilder.offset := None;
       QueryBuilder.distinct := false |}).
  assert (Hsel : QueryBuilder.selectedFields newState <> []) by discriminate.
  destruct (H newState true newState Hsel) as [_ Hback].
  assert (Hset : QueryBuilder.limit newState <> None) by discriminate.
  specialize (Hback Hset). vm_compute in Hback. discriminate Hback.
Qed.

Section LimitOffset.

Import QueryBuilder.

Variables (state : QueryBuilderState) (autoAlias : bool).

(** C6, amended.  For a state with non-empty [selectedFields] the compiled
    text is the text of the same state without limit and offset, followed
    by a [LIMIT] clause exactly when [limit] is set to a number other than
    zero and NaN, and after it by an [OFFSET] clause exactly when, in
    addition, [offset] is set to a number other than zero and NaN.  In
    particular a state whose [limit] is unset gets no [OFFSET] clause,
    whatever its [offset].  The clauses are stated for the numbers that the
    model prints as the source does, the safe integers. *)
Theorem updateQueryFromState_limit_offset (newState : QueryBuilderState) :
  selectedFields newState <> [] ->
  let text := fst (updateQueryFromState state autoAlias newState) in
  let base := fst (updateQueryFromState state autoAlias (withoutLimit newState)) in
  (limit newState = None \/ limit newState = Some JS.NaN
   \/ limit newState = Some (JS.Num 0) -> text = base)
  /\ (forall l,
        limit newState = Some (JS.Num l) -> l <> 0%Z ->
        JS.isSafeInteger (JS.Num l) = true ->
        (offset newState = None \/ offset newState = Some JS.NaN
         \/ offset newState = Some (JS.Num 0) ->
         text = base ++ JS.nl ++ "LIMIT " ++ showNumber (JS.Num l))
        /\ (forall o,
              offset newState = Some (JS.Num o) -> o <> 0%Z ->
              JS.isSafeInteger (JS.Num o) = true ->
              text = base ++ JS.nl ++ "LIMIT " ++ showNumber (JS.Num l)
                          ++ JS.nl ++ "OFFSET " ++ showNumber (JS.Num o)))
  /\ (limit newState = None -> text = base).
Proof.
  intros Hsel text base. subst text base.
  assert (Hsel' : selectedFields (withoutLimit newState) <> []) by exact Hsel.
  rewrite (updateQueryFromState_text state autoAlias _ Hsel).
  rewrite (updateQueryFromState_text state autoAlias _ Hsel').
  cbn [fst].
  change (selectedFields (withoutLimit newState)) with (selectedFields newState).
  change (joinsText (withoutLimit newState)) with (joinsText newState).
  change (whereText (withoutLimit newState)) with (whereText newState).
  change (groupByText (withoutLimit newState)) with (groupByText newState).
  change (orderByText (withoutLimit newState)) with (orderByText newState).
  change (limitText (withoutLimit newState)) with "".
  unfold limitText.
  repeat rewrite <- append_assoc. repeat rewrite append_nil_r.
  assert (Hnz : forall z, z <> 0%Z -> JS.truthy (JS.Num z) = true).
  { intros z Hz. cbn [JS.truthy]. now apply negb_true_iff, Z.eqb_neq. }
  split; [|split].
  - intros [-> | [-> | ->]]; cbn [truthyNumber JS.truthy Z.eqb negb];
      now rewrite append_nil_r.
  - intros l -> Hl _. cbn [truthyNumber showOptNumber]. rewrite (Hnz l Hl).
    split.
    + intros [-> | [-> | ->]]; cbn [truthyNumber JS.truthy Z.eqb negb];
        now rewrite append_nil_r, <- !append_assoc.
    + intros o -> Ho _. cbn [truthyNumber showOptNumber]. rewrite (Hnz o Ho).
      now rewrite <- !append_assoc.
  - intros ->. cbn [truthyNumber]. now rewrite append_nil_r.
Qed.

End LimitOffset.

Lemma updateQueryFromState_limit_offset_witness :
  let newState :=
    {| QueryBuilder.selectedFields := [QueryBuilder.plainField "id"];
       QueryBuilder.joins := []; QueryBuilder.where_ := None;
       QueryBuilder.groupBy := None; QueryBuilder.orderBy := None;
       QueryBuilder.limit := None; QueryBuilder.offset := Some (JS.Num 20);
       QueryBuilder.distinct := false |} in
  QueryBuilder.selectedFields newState <> []
  /\ fst (QueryBuilder.updateQueryFromState newState true newState)
     = fst (QueryBuilder.updateQueryFromState newState true
              (QueryBuilder.withoutLimit newState)).
Proof.
  intros newState.
  assert (Hsel : QueryBuilder.selectedFields newState <> []) by discriminate.
  split; [exact Hsel|].
  destruct (updateQueryFromState_limit_offset newState true newState Hsel)
    as (_ & _ & Hunset).
  apply Hunset. reflexivity.
Defined.

(** ** Aliases of the select list *)

Lemma includes_underscore_app (a b : string) :
  JS.includes (a ++ String "_" b) "_" = true.
Proof.
  induction a as [|c a IH].
  - reflexivity.
  - change ((String c a) ++ String "_" b) with (String c (a ++ String "_" b)).
    cbn [JS.includes]. rewrite IH. apply orb_true_r.
Qed.

(** A name and an underscore-free qualifier can be read back from
    [name_qualifier]. *)
Lemma underscore_join_inj (f1 q1 f2 q2 : string) :
  JS.includes q1 "_" = false ->
  JS.includes q2 "_" = false ->
  f1 ++ "_" ++ q1 = f2 ++ "_" ++ q2 ->
  f1 = f2 /\ q1 = q2.
Proof.
  intros H1 H2. revert f2.
  induction f1 as [|c f1 IH]; intros [|d f2] H; cbn in H.
  - injection H as H. now split.
  - injection H as Hc H. subst q1.
    now rewrite includes_underscore_app in H1.
  - injection H as Hc H. subst q2.
    now rewrite includes_underscore_app in H2.
  - injection H as Hc H. destruct (IH _ H) as [-> ->]. now subst.
Qed.

(** C8, as worded, does not hold: nothing makes the names of the output
    columns distinct.  Two fields with different names and no table alias,
    one of them carrying the alias that is synthesized for the other,
    compile to two columns of the same name. *)
Lemma autoAlias_names_can_collide :
  ~ (forall fs : list QueryBuilder.QueryField,
       NoDup (map QueryBuilder.fieldName fs) ->
       Forall (fun f => QueryBuilder.tableAlias f = None) fs ->
       NoDup (map QueryBuilder.fieldAlias fs)).
Proof.
  intros H.
  pose (fs := [QueryBuilder.plainField "a";
               {| QueryBuilder.fieldName := "b";
                  QueryBuilder.alias := Some "a_main";
                  QueryBuilder.tableAlias := None;
                  QueryBuilder.expression := None;
                  QueryBuilder.aggregation := None |}]).
  assert (Hnames : NoDup (map QueryBuilder.fieldName fs)).
  { repeat constructor; simpl; intuition discriminate. }
  assert (Hno : Forall (fun f => QueryBuilder.tableAlias f = None) fs)
    by (repeat constructor).
  specialize (H fs Hnames Hno).
  inversion H as [|? ? Hnotin _]; subst.
  apply Hnotin. left. reflexivity.
Qed.

(** The selection is not deduplicated: selecting a field twice compiles
    two columns of one name.  Removing it removes both. *)
Example handleFieldSelect_twice :
  let id := QueryBuilder.plainField "id" in
  let once := fst (QueryBuilder.handleFieldSelect QueryBuilder.emptyState true id) in
  let twice := QueryBuilder.handleFieldSelect once true id in
  QueryBuilder.selectedFields (fst twice) = [id; id]
  /\ fst (snd twice)
     = "SELECT" ++ JS.nl ++ "  id AS id_main," ++ JS.nl ++ "  id AS id_main"
       ++ JS.nl ++ "FROM ${TABLE}"
  /\ QueryBuilder.handleFieldRemove (fst twice) true "id"
     = (QueryBuilder.emptyState, ("", None)).
Proof. repeat split. Qed.

Section AutoAlias.

Import QueryBuilder.

Variable state : QueryBuilderState.

Lemma synthesized_alias_inj (f g : QueryField) :
  synthesizes f -> synthesizes g ->
  fieldAlias f = fieldAlias g -> aliasKey f = aliasKey g.
Proof.
  intros [Haf Hqf] [Hag Hqg]. unfold fieldAlias, aliasKey.
  assert (Hf : forall d, orElse (alias f) d = d).
  { intros d. unfold orElse, truthyString in *.
    destruct (alias f) as [a|]; [now rewrite Haf | reflexivity]. }
  assert (Hg : forall d, orElse (alias g) d = d).
  { intros d. unfold orElse, truthyString in *.
    destruct (alias g) as [a|]; [now rewrite Hag | reflexivity]. }
  rewrite Hf, Hg. intros H.
  destruct (underscore_join_inj _ _ _ _ Hqf Hqg H) as [-> ->]. reflexivity.
Qed.

Lemma synthesized_aliases_distinct (fs : list QueryField) :
  Forall synthesizes fs ->
  NoDup (map aliasKey fs) ->
  NoDup (map fieldAlias fs).
Proof.
  induction fs as [|f fs IH]; intros Hall Hnd; [constructor|].
  inversion Hall as [|? ? Hf Hfs]; subst.
  inversion Hnd as [|? ? Hnotin Hnd']; subst.
  simpl. constructor; [|auto].
  intros Hin. apply Hnotin.
  apply in_map_iff in Hin as (g & Heq & Hg).
  apply in_map_iff. exists g. split; [|assumption].
  apply synthesized_alias_inj; auto.
  rewrite Forall_forall in Hfs. auto.
Qed.

(** C8, amended.  With auto-aliasing on, the select list of the compiled
    text holds, in list order and separated by a comma and a line break,
    every selected field as its field reference followed by [AS] and an
    alias: the field's own alias when it has a non-empty one, and otherwise
    the field name, an underscore and the table alias, ["main"] when the
    table alias is missing or empty.  The names need not be distinct; they
    are pairwise distinct when no field has an alias of its own, no table
    alias contains an underscore, and no two fields have both the same name
    and the same table alias once ["main"] stands for a missing or empty
    one (a field [a] without table alias and a field [a] of table alias
    ["main"] both compile to [a_main]); this covers the fields of distinct
    names of a query without joins. *)
Theorem autoAlias_select_list (newState : QueryBuilderState) :
  selectedFields newState <> [] ->
  let fs := selectedFields newState in
  (exists tail,
     fst (updateQueryFromState state true newState)
     = "SELECT" ++ (if distinct state then " DISTINCT" else "") ++ JS.nl ++ "  "
       ++ JS.join ("," ++ JS.nl ++ "  ")
                  (map (fun f => fieldRef f ++ " AS " ++ fieldAlias f) fs)
       ++ JS.nl ++ "FROM ${TABLE}" ++ tail)
  /\ Forall (fun f =>
       (forall t, tableAlias f = Some t -> t <> "" ->
                  fieldRef f = t ++ "." ++ fieldName f)
       /\ (tableAlias f = None \/ tableAlias f = Some "" ->
           fieldRef f = fieldName f)
       /\ (forall a, alias f = Some a -> a <> "" -> fieldAlias f = a)
       /\ (alias f = None \/ alias f = Some "" ->
           (forall t, tableAlias f = Some t -> t <> "" ->
                      fieldAlias f = fieldName f ++ "_" ++ t)
           /\ (tableAlias f = None \/ tableAlias f = Some "" ->
               fieldAlias f = fieldName f ++ "_main"))) fs
  /\ (Forall synthesizes fs -> NoDup (map aliasKey fs) ->
      NoDup (map fieldAlias fs))
  /\ (Forall (fun f => alias f = None /\ tableAlias f = None) fs ->
      NoDup (map fieldName fs) -> NoDup (map fieldAlias fs)).
Proof.
  intros Hsel fs. repeat split.
  - rewrite (updateQueryFromState_text state true _ Hsel). cbn [fst].
    eexists. unfold fieldList, renderField. fold fs. reflexivity.
  - apply Forall_forall. intros f _. unfold fieldRef, fieldAlias, orElse, truthyString.
    repeat split.
    + intros t -> Ht. destruct t; [contradiction|reflexivity].
    + intros [-> | ->]; reflexivity.
    + intros a -> Ha. destruct a; [contradiction|reflexivity].
    + intros t -> Ht. destruct t; [contradiction|].
      destruct H as [-> | ->]; reflexivity.
    + intros [-> | ->]; destruct H as [-> | ->]; reflexivity.
  - apply synthesized_aliases_distinct.
  - intros Hall Hnd. apply synthesized_aliases_distinct.
    + apply Forall_forall. intros f Hf. rewrite Forall_forall in Hall.
      destruct (Hall f Hf) as [Ha Ht]. unfold synthesizes.
      now rewrite Ha, Ht.
    + assert (Hmap : map aliasKey fs = map (fun n => (n, "main")) (map fieldName fs)).
      { rewrite map_map. apply map_ext_in. intros f Hf.
        rewrite Forall_forall in Hall. destruct (Hall f Hf) as [_ Ht].
        unfold aliasKey. now rewrite Ht. }
      rewrite Hmap. apply Finite.Injective_map_NoDup; [|assumption].
      intros x y Hxy. now injection Hxy.
Qed.

End AutoAlias.

Lemma autoAlias_select_list_witness :
  let newState :=
    QueryBuilder.withSelectedFields
      [QueryBuilder.plainField "id"; QueryBuilder.plainField "name"]
      QueryBuilder.emptyState in
  QueryBuilder.selectedFields newState <> []
  /\ NoDup (map QueryBuilder.fieldAlias (QueryBuilder.selectedFields newState)).
Proof.
  intros newState.
  assert (Hsel : QueryBuilder.selectedFields newState <> []) by discriminate.
  split; [exact Hsel|].
  destruct (autoAlias_select_list newState newState Hsel) as (_ & _ & _ & Hdistinct).
  apply Hdistinct.
  - repeat constructor.
  - repeat constructor; simpl; intuition discriminate.
Defined.

(** ** insertFieldIntoQuery *)

Section InsertField.

Import Explorer.

Lemma containsSelect_includes (query : string) :
  containsSelect query <-> JS.includes (JS.toLowerCase query) "select" = true.
Proof. unfold containsSelect. now rewrite includes_spec. Qed.

Lemma trimmedEndsWithSelect_endsWith (query : string) :
  trimmedEndsWithSelect query
  <-> JS.endsWith (JS.trim (JS.toLowerCase query)) "select" = true.
Proof. unfold trimmedEndsWithSelect. now rewrite endsWith_spec. Qed.

Lemma trimmedEndsWithSelect_contains (query : string) :
  trimmedEndsWithSelect query -> containsSelect query.
Proof.
  intros [before H].
  destruct (trim_substring (JS.toLowerCase query)) as (a & b & Hq).
  rewrite H in Hq. exists (a ++ before), b.
  rewrite Hq. now rewrite !append_assoc.
Qed.

Lemma containsSelect_nonempty (query : string) :
  containsSelect query -> (0 <? String.length query)%nat = true.
Proof.
  intros (before & after & H). destruct query; [|reflexivity].
  destruct before; discriminate H.
Qed.

Lemma prefixOf_spec (selectedDataset selectedTable : option string) :
  (forall d t, selectedDataset = Some d -> selectedTable = Some t ->
               d <> "" -> t <> "" ->
               prefixOf selectedDataset selectedTable = "`" ++ d ++ "." ++ t ++ "`")
  /\ (selectedDataset = None \/ selectedDataset = Some ""
      \/ selectedTable = None \/ selectedTable = Some "" ->
      prefixOf selectedDataset selectedTable = "").
Proof.
  split.
  - intros d t -> -> Hd Ht. destruct d, t; try contradiction. reflexivity.
  - intros [-> | [-> | [-> | ->]]]; try reflexivity.
    + now destruct selectedTable.
    + now destruct selectedDataset.
    + destruct selectedDataset as [d|]; [|reflexivity].
      simpl. now rewrite andb_false_r.
Qed.

Variables (selectedDataset selectedTable : option string) (fieldName : string).

Lemma insertField_new_select (query : string) :
  ~ containsSelect query ->
  insertFieldIntoQuery query selectedDataset selectedTable fieldName
  = "SELECT " ++ prefixOf selectedDataset selectedTable ++ "." ++ fieldName.
Proof.
  rewrite containsSelect_includes. intros H.
  apply not_true_is_false in H.
  unfold insertFieldIntoQuery. rewrite H. simpl.
  now destruct (0 <? String.length query)%nat.
Qed.

Lemma insertField_existing_fields (query : string) :
  containsSelect query -> ~ trimmedEndsWithSelect query ->
  insertFieldIntoQuery query selectedDataset selectedTable fieldName
  = query ++ "," ++ JS.nl ++ "  "
    ++ prefixOf selectedDataset selectedTable ++ "." ++ fieldName.
Proof.
  intros Hc He. pose proof (containsSelect_nonempty _ Hc) as Hlen.
  rewrite containsSelect_includes in Hc.
  rewrite trimmedEndsWithSelect_endsWith in He.
  apply not_true_is_false in He.
  unfold insertFieldIntoQuery. now rewrite Hlen, Hc, He.
Qed.

Lemma insertField_bare_select (query : string) :
  trimmedEndsWithSelect query ->
  insertFieldIntoQuery query selectedDataset selectedTable fieldName
  = query ++ " " ++ prefixOf selectedDataset selectedTable ++ "." ++ fieldName.
Proof.
  intros He. pose proof (trimmedEndsWithSelect_contains _ He) as Hc.
  pose proof (containsSelect_nonempty _ Hc) as Hlen.
  rewrite containsSelect_includes in Hc.
  rewrite trimmedEndsWithSelect_endsWith in He.
  unfold insertFieldIntoQuery. now rewrite Hlen, Hc, He.
Qed.

(** C4.  With [prefix] the backtick-quoted [dataset.table] when both are
    known (present and non-empty) and the empty string otherwise, the new
    text follows the decision table: an empty query, and a non-empty query
    that contains no SELECT in any letter case, give [SELECT prefix.field];
    a query that contains SELECT and whose trimmed text does not end with
    it gets a comma, a line break, two spaces and [prefix.field] appended; a
    query whose trimmed text ends with SELECT gets a space and
    [prefix.field] appended.  An empty query, field [id], dataset [d] and
    table [t] give [SELECT `d.t`.id]. *)
Theorem insertFieldIntoQuery_decision_table (query : string) :
  exists prefix,
    ((forall d t, selectedDataset = Some d -> selectedTable = Some t ->
                  d <> "" -> t <> "" -> prefix = "`" ++ d ++ "." ++ t ++ "`")
     /\ (selectedDataset = None \/ selectedDataset = Some ""
         \/ selectedTable = None \/ selectedTable = Some "" -> prefix = ""))
    /\ (query = "" ->
        insertFieldIntoQuery query selectedDataset selectedTable fieldName
        = "SELECT " ++ prefix ++ "." ++ fieldName)
    /\ (query <> "" -> ~ containsSelect query ->
        insertFieldIntoQuery query selectedDataset selectedTable fieldName
        = "SELECT " ++ prefix ++ "." ++ fieldName)
    /\ (containsSelect query -> ~ trimmedEndsWithSelect query ->
        insertFieldIntoQuery query selectedDataset selectedTable fieldName
        = query ++ "," ++ JS.nl ++ "  " ++ prefix ++ "." ++ fieldName)
    /\ (trimmedEndsWithSelect query ->
        insertFieldIntoQuery query selectedDataset selectedTable fieldName
        = query ++ " " ++ prefix ++ "." ++ fieldName)
    /\ insertFieldIntoQuery "" (Some "d") (Some "t") "id" = "SELECT `d.t`.id"
    /\ insertFieldIntoQuery "SELECT `d.t`.id" (Some "d") (Some "t") "name"
       = "SELECT `d.t`.id," ++ JS.nl ++ "  `d.t`.name".
Proof.
  exists (prefixOf selectedDataset selectedTable).
  split; [apply prefixOf_spec|].
  repeat split.
  - intros ->. reflexivity.
  - intros _. apply insertField_new_select.
  - apply insertField_existing_fields.
  - apply insertField_bare_select.
Qed.

(** C10, amended.  Detection of SELECT is matching of the letters, not of
    a keyword.  Whatever surrounds an occurrence of the letters [select] in
    the lower-cased query, inside a longer word or not, the query gets a
    comma, a line break, two spaces and [prefix.field] appended as soon as
    its lower-cased text, once trimmed, does not end with those letters;
    and a query whose trimmed lower-cased text merely ends with them gets a
    space and [prefix.field] appended.  So [selection] is continued with a
    comma and [myselect] with a space. *)
Theorem insertFieldIntoQuery_matches_letters (query : string) :
  (forall before after,
      JS.toLowerCase query = before ++ "select" ++ after ->
      ~ trimmedEndsWithSelect query ->
      insertFieldIntoQuery query selectedDataset selectedTable fieldName
      = query ++ "," ++ JS.nl ++ "  "
        ++ prefixOf selectedDataset selectedTable ++ "." ++ fieldName)
  /\ (forall before,
      JS.trim (JS.toLowerCase query) = before ++ "select" ->
      insertFieldIntoQuery query selectedDataset selectedTable fieldName
      = query ++ " " ++ prefixOf selectedDataset selectedTable ++ "."
        ++ fieldName)
  /\ selectOnlyInsideWords (JS.toLowerCase "selection")
  /\ insertFieldIntoQuery "selection" selectedDataset selectedTable fieldName
     = "selection," ++ JS.nl ++ "  "
       ++ prefixOf selectedDataset selectedTable ++ "." ++ fieldName
  /\ insertFieldIntoQuery "Selection" selectedDataset selectedTable fieldName
     = "Selection," ++ JS.nl ++ "  "
       ++ prefixOf selectedDataset selectedTable ++ "." ++ fieldName
  /\ insertFieldIntoQuery "myselect" selectedDataset selectedTable fieldName
     = "myselect " ++ prefixOf selectedDataset selectedTable ++ "."
       ++ fieldName.
Proof.
  repeat split.
  - intros before after H. apply insertField_existing_fields.
    now exists before, after.
  - intros before H. apply insertField_bare_select. now exists before.
  - intros before after H. right.
    destruct before as [|c before]; cbn in H.
    + injection H as <-. exists "i"%char, "on". split; reflexivity.
    + exfalso. injection H as _ H.
      repeat (destruct before as [|? before]; cbn in H;
              [discriminate H | injection H as _ H]).
      destruct before; discriminate H.
Qed.

End InsertField.

(** C10, as worded, does not hold for a query with trailing white space:
    in ["myselect "] the letters occur only inside the word [myselect] and
    the lower-cased text does not end with them, yet the text is continued
    with a space, not with a comma. *)
Lemma insertFieldIntoQuery_trailing_space :
  ~ (forall (query : string) (selectedDataset selectedTable : option string)
            (fieldName : string),
       query <> "" ->
       Explorer.containsSelect query ->
       Explorer.selectOnlyInsideWords (JS.toLowerCase query) ->
       JS.endsWith (JS.toLowerCase query) "select" = false ->
       Explorer.insertFieldIntoQuery query selectedDataset selectedTable fieldName
       = query ++ "," ++ JS.nl ++ "  "
         ++ Explorer.prefixOf selectedDataset selectedTable ++ "." ++ fieldName).
Proof.
  intros H.
  specialize (H "myselect " (Some "d") (Some "t") "id").
  assert (Hne : "myselect " <> "") by discriminate.
  assert (Hc : Explorer.containsSelect "myselect ") by (now exists "my", " ").
  assert (Hw : Explorer.selectOnlyInsideWords (JS.toLowerCase "myselect ")).
  { intros before after Heq. left.
    destruct before as [|c1 [|c2 [|c3 before]]]; cbn in Heq.
    - discriminate Heq.
    - injection Heq as _ Heq. discriminate Heq.
    - injection Heq as <- <- _. exists "m", "y"%char. split; reflexivity.
    - exfalso. injection Heq as _ _ _ Heq.
      repeat (destruct before as [|? before]; cbn in Heq;
              [discriminate Heq | injection Heq as _ Heq]).
      destruct before; discriminate Heq. }
  specialize (H Hne Hc Hw eq_refl).
  vm_compute in H. discriminate H.
Qed.

(** ** groupTablesByDate *)

Section GroupTables.

Import Explorer.

(** What the body of the [forEach] stores. *)
Lemma pushTable_eq (groups : JS.obj (JS.obj (list string)))
    (year month table : string) :
  JS.inherited year || JS.inherited month = false ->
  pushTable groups year month table
  = Some (JS.set year
            (JS.set month
               (JS.orEmpty (JS.get month (JS.orEmpty (JS.get year groups)))
                ++ [table])%list
               (JS.orEmpty (JS.get year groups)))
            groups).
Proof.
  intros Hplain. unfold pushTable. rewrite Hplain. f_equal.
  destruct (JS.get year groups) as [ms|] eqn:Ey.
  - rewrite Ey. simpl. destruct (JS.get month ms) as [ts|] eqn:Em.
    + now rewrite Em.
    + now rewrite get_set_same, set_set.
  - rewrite get_set_same. cbn [JS.orEmpty].
    change (JS.get month (@nil (string * list string))) with (@None (list string)).
    cbn iota. rewrite get_set_same. now rewrite !set_set.
Qed.

Lemma pushTable_wellFormed (groups groups' : JS.obj (JS.obj (list string)))
    (year month table : string) :
  wellFormed groups ->
  pushTable groups year month table = Some groups' ->
  wellFormed groups'.
Proof.
  intros [Hkeys Hall] H.
  destruct (JS.inherited year || JS.inherited month) eqn:Hplain;
    [unfold pushTable in H; rewrite Hplain in H; discriminate|].
  rewrite (pushTable_eq _ _ _ _ Hplain) in H. injection H as <-.
  split.
  - now apply keys_set_NoDup.
  - apply Forall_set; [assumption|]. simpl. apply keys_set_NoDup.
    destruct (JS.get year groups) as [ms|] eqn:Ey; simpl; [|constructor].
    apply get_Some_In in Ey. rewrite Forall_forall in Hall.
    exact (Hall _ Ey).
Qed.

Lemma pushTable_members (groups groups' : JS.obj (JS.obj (list string)))
    (year month table : string) :
  wellFormed groups ->
  pushTable groups year month table = Some groups' ->
  forall x, In x (tablesIn groups') <-> In x (tablesIn groups) \/ x = table.
Proof.
  intros [Hkeys Hall] H x.
  destruct (JS.inherited year || JS.inherited month) eqn:Hplain;
    [unfold pushTable in H; rewrite Hplain in H; discriminate|].
  rewrite (pushTable_eq _ _ _ _ Hplain) in H. injection H as <-.
  unfold tablesIn. apply In_flat_set; [assumption|].
  intros y.
  assert (Hms : NoDup (map fst (JS.orEmpty (JS.get year groups)))).
  { destruct (JS.get year groups) as [ms|] eqn:Ey; simpl; [|constructor].
    apply get_Some_In in Ey. rewrite Forall_forall in Hall.
    exact (Hall _ Ey). }
  rewrite (In_flat_set (fun ts => ts) month _ _ table y Hms).
  - destruct (JS.get year groups); simpl; tauto.
  - intros z. rewrite in_app_iff. simpl.
    destruct (JS.get month _); simpl; intuition congruence.
Qed.

Lemma addTable_members (groups : JS.obj (JS.obj (list string))) (table : string) :
  wellFormed groups ->
  plainSegments table = true ->
  exists groups',
    addTable groups table = Some groups'
    /\ wellFormed groups'
    /\ forall x, In x (tablesIn groups')
                 <-> In x (tablesIn groups)
                     \/ (x = table /\ 3 <= List.length (JS.split "_" x)).
Proof.
  intros Hwf Ht. unfold plainSegments in Ht. unfold addTable.
  destruct (3 <=? List.length (JS.split "_" table))%nat eqn:Elen.
  - apply negb_true_iff in Ht.
    pose proof (pushTable_eq groups _ _ table Ht) as Heq.
    eexists. split; [exact Heq|]. split.
    + eapply pushTable_wellFormed; eauto.
    + intros x. rewrite (pushTable_members _ _ _ _ _ Hwf Heq x).
      apply Nat.leb_le in Elen. split.
      * intros [H| ->]; [now left | right; now split].
      * intros [H|[-> _]]; [now left | now right].
  - exists groups. split; [reflexivity|]. split; [assumption|].
    apply Nat.leb_gt in Elen. intros x. split.
    + now left.
    + intros [H|[-> H]]; [assumption|lia].
Qed.

Lemma forEachTable_members (tables : list string) :
  forall groups : JS.obj (JS.obj (list string)),
    wellFormed groups ->
    forallb plainSegments tables = true ->
    exists groups',
      forEachTable tables groups = Some groups'
      /\ wellFormed groups'
      /\ forall x, In x (tablesIn groups')
                   <-> In x (tablesIn groups)
                       \/ (In x tables /\ 3 <= List.length (JS.split "_" x)).
Proof.
  induction tables as [|table tables IH]; intros groups Hwf Hplain.
  - exists groups. split; [reflexivity|]. split; [assumption|].
    intros x. simpl. tauto.
  - simpl in Hplain. apply andb_true_iff in Hplain as [Ht Hrest].
    destruct (addTable_members groups table Hwf Ht) as (g1 & Hg1 & Hwf1 & Hmem1).
    destruct (IH g1 Hwf1 Hrest) as (g2 & Hg2 & Hwf2 & Hmem2).
    exists g2. simpl. rewrite Hg1. split; [assumption|]. split; [assumption|].
    intros x. rewrite Hmem2, Hmem1. split.
    + intros [[Hx|[-> Hlen]]|[Hx Hlen]]; auto.
    + intros [Hx|[[<-|Hx] Hlen]]; auto.
Qed.

Lemma forEachTable_plain (tables : list string) :
  forall groups groups' : JS.obj (JS.obj (list string)),
    forEachTable tables groups = Some groups' ->
    forallb plainSegments tables = true.
Proof.
  induction tables as [|table tables IH]; intros groups groups' H;
    [reflexivity|].
  simpl in H. destruct (addTable groups table) as [g1|] eqn:E; [|discriminate].
  simpl. rewrite (IH _ _ H), andb_true_r.
  unfold addTable in E. unfold plainSegments.
  destruct (3 <=? _)%nat; [|reflexivity].
  unfold pushTable in E.
  destruct (JS.inherited _ || JS.inherited _); [discriminate|reflexivity].
Qed.

Variable localeCompare : string -> string -> Z.

(** The months of a displayed group hold what the dictionary held. *)
Lemma displayed_months (ms : JS.obj (list string)) (x : string) :
  NoDup (map fst ms) ->
  In x (concat (map snd
          (JS.entries (JS.fromEntries (JS.sort compareMonths (JS.entries ms))))))
  <-> In x (JS.flat (fun ts => ts) ms).
Proof.
  intros Hnd.
  assert (Hp : Permutation (JS.sort compareMonths (JS.entries ms)) ms).
  { etransitivity; [apply sort_perm | apply entries_perm]. }
  rewrite fromEntries_NoDup.
  - change (concat (map snd ?l)) with (JS.flat (fun ts : list string => ts) l).
    apply In_flat_perm. etransitivity; [apply entries_perm | exact Hp].
  - eapply Permutation_NoDup; [|exact Hnd].
    apply Permutation_map. now symmetry.
Qed.

Lemma displayed_tables (groups : JS.obj (JS.obj (list string))) (x : string) :
  wellFormed groups ->
  In x (tablesOf
          (map (fun entry =>
                  {| year := fst entry;
                     months :=
                       JS.fromEntries
                         (JS.sort compareMonths (JS.entries (snd entry))) |})
               (JS.sort (compareYears localeCompare) (JS.entries groups))))
  <-> In x (tablesIn groups).
Proof.
  intros [Hkeys Hall]. unfold tablesOf, tablesIn.
  rewrite map_map. cbn [months].
  assert (Hp : Permutation
                 (JS.sort (compareYears localeCompare) (JS.entries groups))
                 groups).
  { etransitivity; [apply sort_perm | apply entries_perm]. }
  rewrite (In_flat_perm (JS.flat (fun ts => ts)) _ _ x (Permutation_sym Hp)).
  rewrite In_flat, in_concat. rewrite Forall_forall in Hall. split.
  - intros (l & Hl & Hx). apply in_map_iff in Hl as (e & <- & He).
    exists e. split; [assumption|].
    assert (Hnd : NoDup (map fst (snd e)))
      by (apply Hall; eapply Permutation_in; eauto).
    exact (proj1 (displayed_months (snd e) x Hnd) Hx).
  - intros (e & He & Hx). eexists. split.
    + apply in_map_iff. exists e. split; [reflexivity | exact He].
    + assert (Hnd : NoDup (map fst (snd e)))
        by (apply Hall; eapply Permutation_in; eauto).
      exact (proj2 (displayed_months (snd e) x Hnd) Hx).
Qed.

(** The call leaves the dictionary model exactly when some table of three
    segments or more has a year or month segment that names a property
    inherited from [Object.prototype]. *)
Lemma groupTablesByDate_returns (tables : list string) :
  groupTablesByDate localeCompare (Some tables) <> None
  <-> forallb plainSegments tables = true.
Proof.
  unfold groupTablesByDate. split.
  - destruct (forEachTable tables []) as [g|] eqn:E; [|congruence].
    intros _. eapply forEachTable_plain; eauto.
  - intros H.
    destruct (forEachTable_members tables [] (conj (NoDup_nil _) (Forall_nil _)) H)
      as (g & -> & _). discriminate.
Qed.

(** C2, amended.  [groupTablesByDate] does not classify: for every list of
    table names whose year and month segments are no property names
    inherited from [Object.prototype], it returns groups, and a table
    appears somewhere in them if and only if it is in the list and its name
    splits on underscore into at least three segments; the other tables are
    silently left out.  The segments are not tested for being numeric. *)
Theorem groupTablesByDate_members (tables : list string) :
  forallb plainSegments tables = true ->
  exists groups,
    groupTablesByDate localeCompare (Some tables) = Some groups
    /\ forall table,
         In table (tablesOf groups)
         <-> In table tables /\ 3 <= List.length (JS.split "_" table).
Proof.
  intros Hplain.
  destruct (forEachTable_members tables [] (conj (NoDup_nil _) (Forall_nil _)) Hplain)
    as (g & Hg & Hwf & Hmem).
  unfold groupTablesByDate. rewrite Hg. eexists. split; [reflexivity|].
  intros table. rewrite (displayed_tables g table Hwf), Hmem.
  simpl. tauto.
Qed.

(** C9.  The claim is right and the code misses it for months named by
    canonical integers: the months are sorted in descending order and then
    collected with [Object.fromEntries] into an object, which lists
    properties named by array indices in ascending order before all others.
    For November and December of one year the group lists month 11 before
    month 12; with October and September added it lists 10, 11, 12, 09. *)
Theorem groupTablesByDate_months_ascending :
  option_map (map (fun g => (year g, JS.entries (months g))))
             (groupTablesByDate localeCompare (Some ["2024_11_a"; "2024_12_b"]))
  = Some [("2024", [("11", ["2024_11_a"]); ("12", ["2024_12_b"])])]
  /\ option_map (map (fun g => (year g, map fst (JS.entries (months g)))))
       (groupTablesByDate localeCompare
          (Some ["2024_09_a"; "2024_10_b"; "2024_11_c"; "2024_12_d"]))
     = Some [("2024", ["10"; "11"; "12"; "09"])]
  /\ option_map (map (fun g => (year g, JS.entries (months g))))
       (groupTablesByDate localeCompare
          (Some ["2024_03_b"; "2024_03_a"; "2024_02_c"]))
     = Some [("2024", [("03", ["2024_03_b"; "2024_03_a"]);
                       ("02", ["2024_02_c"])])].
Proof. repeat split; reflexivity. Qed.

(** The years of the groups descend in the collation, whenever it is
    consistent. *)
Lemma groupTablesByDate_years_descending (tables : list string)
    (groups : list TableGroup) :
  consistentCollation localeCompare ->
  groupTablesByDate localeCompare (Some tables) = Some groups ->
  StronglySorted (fun g h => (localeCompare (year h) (year g) <= 0)%Z) groups.
Proof.
  intros [Hanti Htrans] H. unfold groupTablesByDate in H.
  destruct (forEachTable tables []) as [G|]; [|discriminate].
  injection H as <-.
  apply StronglySorted_map. cbn [year].
  eapply StronglySorted_impl; [|apply sort_sorted].
  - intros a b Hab. unfold JS.notAfter, compareYears in Hab.
    cbn [JS.positive] in Hab. apply Z.ltb_ge in Hab. exact Hab.
  - unfold JS.notAfter, compareYears. cbn [JS.positive].
    intros a b c Hab Hbc. apply Z.ltb_ge. apply Z.ltb_ge in Hab, Hbc.
    eapply Htrans; eauto.
  - assert (Hall : forall l : list (string * JS.obj (list string)),
               ForallOrdPairs
                 (fun x y =>
                    JS.positive (compareYears localeCompare x y) = true ->
                    JS.notAfter (compareYears localeCompare) y x) l).
    { induction l as [|x l IH]; constructor; [|assumption].
      apply Forall_forall. intros y _.
      unfold JS.notAfter, compareYears. cbn [JS.positive].
      intros Hpos. apply Z.ltb_lt in Hpos. apply Z.ltb_ge.
      apply Hanti in Hpos. lia. }
    apply Hall.
Qed.

(** The example of the design document, whose months are no canonical
    integers, comes out as stated wherever the collation puts 2024 after
    2023. *)
Lemma groupTablesByDate_example :
  (0 < localeCompare "2024" "2023")%Z ->
  option_map (map (fun g => (year g, JS.entries (months g))))
             (groupTablesByDate localeCompare
                (Some ["2024_01_a"; "2024_02_b"; "2023_12_c"]))
  = Some [("2024", [("02", ["2024_02_b"]); ("01", ["2024_01_a"])]);
          ("2023", [("12", ["2023_12_c"])])].
Proof.
  intros H. apply Z.ltb_lt in H. unfold groupTablesByDate.
  assert (E1 : forEachTable ["2024_01_a"; "2024_02_b"; "2023_12_c"] []
               = Some [("2024", [("01", ["2024_01_a"]); ("02", ["2024_02_b"])]);
                       ("2023", [("12", ["2023_12_c"])])])
    by reflexivity.
  rewrite E1. cbv beta iota.
  match goal with
  | |- context [JS.sort _ (@JS.entries ?V ?g)] =>
      replace (@JS.entries V g)
        with [("2023", [("12", ["2023_12_c"])]);
              ("2024", [("01", ["2024_01_a"]); ("02", ["2024_02_b"])])]
        by reflexivity
  end.
  cbn [JS.sort JS.insertSorted compareYears JS.positive fst].
  rewrite H. reflexivity.
Qed.

End GroupTables.

(** C2, as worded, does not hold: classification resolves no year and no
    month for ["a_b_c"], and the table is grouped all the same. *)
Lemma groupTablesByDate_keeps_unclassified :
  ~ (forall (localeCompare : string -> string -> Z) (tables : list string)
            (groups : list Explorer.TableGroup) (table : string),
       Explorer.groupTablesByDate localeCompare (Some tables) = Some groups ->
       (In table (Explorer.tablesOf groups)
        <-> In table tables
            /\ TableSelector.year (TableSelector.parseTableName table) <> None
            /\ TableSelector.month (TableSelector.parseTableName table) <> None)).
Proof.
  intros H.
  destruct (H (fun _ _ => 0%Z) ["a_b_c"] _ "a_b_c" eq_refl) as [Hin _].
  destruct Hin as (_ & Hyear & _).
  - left. reflexivity.
  - apply Hyear. reflexivity.
Qed.

Lemma groupTablesByDate_members_witness :
  forallb Explorer.plainSegments ["2024_03_15_sales"; "notes"; "a_b_c"] = true
  /\ exists groups,
       Explorer.groupTablesByDate (fun _ _ => 0%Z)
         (Some ["2024_03_15_sales"; "notes"; "a_b_c"]) = Some groups
       /\ forall table,
            In table (Explorer.tablesOf groups)
            <-> In table ["2024_03_15_sales"; "notes"; "a_b_c"]
                /\ 3 <= List.length (JS.split "_" table).
Proof.
  split; [reflexivity|].
  apply (groupTablesByDate_members (fun _ _ => 0%Z)
           ["2024_03_15_sales"; "notes"; "a_b_c"]).
  reflexivity.
Defined.

(** ** groupDatasets: the category of a dataset *)

Section Category.

Import Explorer.



Lemma split_nonempty (s : string) : JS.split "_" s <> [].
Proof.
  destruct s as [|c s]; simpl; [discriminate|].
  destruct (Ascii.eqb c "_"); [discriminate|].
  destruct (JS.split "_" s); discriminate.
Qed.

(** The first segment is the text before the first underscore. *)
Lemma split_first_segment (s : string) :
  JS.includes s "_" = true ->
  exists rest,
    s = nth 0 (JS.split "_" s) "" ++ "_" ++ rest
    /\ JS.includes (nth 0 (JS.split "_" s) "") "_" = false.
Proof.
  induction s as [|c s IH]; [discriminate|].
  cbn [JS.includes JS.startsWith JS.split].
  rewrite (Ascii.eqb_sym "_" c).
  destruct (Ascii.eqb_spec c "_") as [->|Hc].
  - intros _. exists s. split; reflexivity.
  - cbn [andb orb]. intros H. destruct (IH H) as (rest & Hs & Hseg).
    pose proof (split_nonempty s) as Hne.
    destruct (JS.split "_" s) as [|seg segs]; [contradiction|].
    cbn [nth] in *. exists rest. split.
    + cbn [append]. f_equal. exact Hs.
    + cbn [JS.includes JS.startsWith]. rewrite Hseg.
      destruct (Ascii.eqb_spec "_" c) as [E|_]; [congruence|reflexivity].
Qed.


End Category.

(** ** groupDatasets: the groups *)

Section GroupDatasets.

Import Explorer.

Lemma addDataset_eq (groups : JS.obj (list string)) (dataset : string) :
  addDataset groups dataset
  = JS.set (categoryOf dataset)
           (JS.orEmpty (JS.get (categoryOf dataset) groups) ++ [dataset])%list
           groups.
Proof.
  unfold addDataset.
  destruct (JS.get (categoryOf dataset) groups) as [ms|] eqn:E.
  - now rewrite E.
  - now rewrite get_set_same, set_set.
Qed.





Variable localeCompare : string -> string -> Z.

Hypothesis collation : consistentCollation localeCompare.




End GroupDatasets.




(** ** The dictionary of [groupDatasets] reads own properties only *)

Lemma firstMatch_In (dataset : string) (mapping : list (string * string))
    (categoryName : string) :
  Explorer.firstMatch dataset mapping = Some categoryName ->
  In categoryName (map snd mapping).
Proof.
  induction mapping as [|[p n] mapping IH]; simpl; [discriminate|].
  destruct (JS.startsWith dataset p).
  - intros H. injection H as ->. now left.
  - auto.
Qed.

Lemma capitalize_not_inherited (segment : string) :
  JS.includes segment "_" = false ->
  JS.inherited (Explorer.capitalize segment) = false.
Proof.
  destruct segment as [|c s]; [reflexivity|]. intros H.
  destruct c as [[] [] [] [] [] [] [] []];
    try (vm_compute in H; discriminate H); vm_compute; reflexivity.
Qed.

(** No category is the name of a property inherited from
    [Object.prototype]: [groups[category]] is [undefined] until the
    category is created. *)
Lemma categoryOf_not_inherited (dataset : string) :
  JS.inherited (Explorer.categoryOf dataset) = false.
Proof.
  unfold Explorer.categoryOf.
  change (JS.entries Explorer.prefixMap) with Explorer.prefixMap.
  destruct (Explorer.firstMatch dataset Explorer.prefixMap) as [name|] eqn:E.
  - apply firstMatch_In in E. simpl in E.
    repeat (destruct E as [<-|E]; [reflexivity|]). contradiction.
  - destruct (JS.includes dataset "_") eqn:Hu; [|reflexivity].
    destruct (split_first_segment dataset Hu) as (rest & _ & Hseg).
    now apply capitalize_not_inherited.
Qed.

(* ===================================================================== *)
(** * Further properties of the same files                                *)
(* ===================================================================== *)

(** ** getMonthName *)

(** [getMonthName] answers the name of the month for a text that
    [parseInt] reads as a number from 1 to 12, and hands any other text
    back unchanged: a text that is no number, and a number outside 1..12. *)
Theorem getMonthName_spec (monthNum : string) :
  (forall n, JS.parseInt10 monthNum = JS.Num n -> (1 <= n <= 12)%Z ->
             nth_error Explorer.MONTHS (Z.to_nat (n - 1))
             = Some (Explorer.getMonthName monthNum))
  /\ (forall n, JS.parseInt10 monthNum = JS.Num n -> (n < 1 \/ 12 < n)%Z ->
                Explorer.getMonthName monthNum = monthNum)
  /\ (JS.parseInt10 monthNum = JS.NaN ->
      Explorer.getMonthName monthNum = monthNum)
  /\ (In (Explorer.getMonthName monthNum) Explorer.MONTHS
      \/ Explorer.getMonthName monthNum = monthNum).
Proof.
  unfold Explorer.getMonthName.
  destruct (JS.parseInt10 monthNum) as [|z] eqn:E;
    cbn [JS.sub Explorer.monthAt].
  - repeat split; try discriminate; auto.
  - destruct (z - 1 <? 0)%Z eqn:Hneg.
    + apply Z.ltb_lt in Hneg. repeat split; auto.
      intros n Hn Hrange. injection Hn as <-. lia.
    + apply Z.ltb_ge in Hneg.
      destruct (nth_error Explorer.MONTHS (Z.to_nat (z - 1))) as [name|] eqn:Hnth.
      * repeat split.
        -- intros n Hn _. now injection Hn as <-.
        -- intros n Hn Hout. injection Hn as <-. exfalso.
           assert (Hlt : Z.to_nat (z - 1) < List.length Explorer.MONTHS)
             by (apply nth_error_Some; congruence).
           simpl in Hlt. lia.
        -- discriminate.
        -- left. eapply nth_error_In; eauto.
      * repeat split; auto.
        intros n Hn Hrange. injection Hn as <-. exfalso.
        apply nth_error_None in Hnth. simpl in Hnth. lia.
Qed.

(** ** parseTableName: the name can be read back *)

Lemma join_split (s : string) : JS.join "_" (JS.split "_" s) = s.
Proof.
  unfold JS.join. induction s as [|c s IH]; [reflexivity|].
  cbn [JS.split]. pose proof (split_nonempty s) as Hne.
  destruct (JS.split "_" s) as [|seg segs]; [contradiction|].
  destruct (Ascii.eqb_spec c "_") as [->|Hc].
  - change (String.concat "_" ("" :: seg :: segs))
      with (String "_" (String.concat "_" (seg :: segs))).
    now rewrite IH.
  - destruct segs as [|s0 segs].
    + simpl in *. now subst.
    + change (String.concat "_" (String c seg :: s0 :: segs))
        with (String c (seg ++ "_" ++ String.concat "_" (s0 :: segs))).
      f_equal. exact IH.
Qed.

Lemma split_segments_plain (s : string) :
  Forall (fun seg => JS.includes seg "_" = false) (JS.split "_" s).
Proof.
  induction s as [|c s IH]; [repeat constructor|].
  cbn [JS.split]. pose proof (split_nonempty s) as Hne.
  destruct (JS.split "_" s) as [|seg segs]; [contradiction|].
  destruct (Ascii.eqb_spec c "_") as [->|Hc].
  - now constructor.
  - inversion IH as [|? ? Hseg Hsegs]; subst. constructor; [|assumption].
    cbn [JS.includes JS.startsWith]. rewrite Hseg.
    destruct (Ascii.eqb_spec "_" c); [congruence|reflexivity].
Qed.

(** A dated table name is its date fields joined by underscores, followed,
    when the name has more than three segments, by an underscore and the
    type; and year, month and day hold no underscore. *)
Theorem parseTableName_name_rebuilt (table : string) :
  TableSelector.dated (TableSelector.parseTableName table) = true ->
  exists y m d t,
    TableSelector.parseTableName table
    = {| TableSelector.name := table; TableSelector.year := Some y;
         TableSelector.month := Some m; TableSelector.day := Some d;
         TableSelector.type := Some t |}
    /\ JS.includes y "_" = false
    /\ JS.includes m "_" = false
    /\ JS.includes d "_" = false
    /\ (List.length (JS.split "_" table) = 3 ->
        t = "" /\ table = y ++ "_" ++ m ++ "_" ++ d)
    /\ (3 < List.length (JS.split "_" table) ->
        table = y ++ "_" ++ m ++ "_" ++ d ++ "_" ++ t).
Proof.
  unfold TableSelector.parseTableName.
  pose proof (join_split table) as Hjoin.
  pose proof (split_segments_plain table) as Hplain.
  destruct (JS.split "_" table) as [|y [|m [|d rest]]]; simpl;
    try discriminate.
  destruct (negb (JS.isNaN_Number y) && negb (JS.isNaN_Number m)
            && negb (JS.isNaN_Number d)); [|discriminate].
  intros _. exists y, m, d, (JS.join "_" rest).
  apply Forall_cons_iff in Hplain as [Hy H1].
  apply Forall_cons_iff in H1 as [Hm H2].
  apply Forall_cons_iff in H2 as [Hd _].
  repeat split; try assumption.
  - destruct rest; [reflexivity|discriminate].
  - destruct rest; [|discriminate]. now rewrite <- Hjoin.
  - intros Hlen. destruct rest as [|r rest]; [simpl in Hlen; lia|].
    now rewrite <- Hjoin at 1.
Qed.

Lemma parseTableName_name_rebuilt_witness :
  TableSelector.dated (TableSelector.parseTableName "2024_03_15_daily_sales") = true
  /\ exists y m d t,
       TableSelector.parseTableName "2024_03_15_daily_sales"
       = {| TableSelector.name := "2024_03_15_daily_sales";
            TableSelector.year := Some y;
            TableSelector.month := Some m; TableSelector.day := Some d;
            TableSelector.type := Some t |}
       /\ JS.includes y "_" = false
       /\ JS.includes m "_" = false
       /\ JS.includes d "_" = false
       /\ (List.length (JS.split "_" "2024_03_15_daily_sales") = 3 ->
           t = "" /\ "2024_03_15_daily_sales" = y ++ "_" ++ m ++ "_" ++ d)
       /\ (3 < List.length (JS.split "_" "2024_03_15_daily_sales") ->
           "2024_03_15_daily_sales" = y ++ "_" ++ m ++ "_" ++ d ++ "_" ++ t).
Proof.
  split; [reflexivity|].
  apply (parseTableName_name_rebuilt "2024_03_15_daily_sales"). reflexivity.
Defined.

(** ** Lower case *)

Lemma toLowerChar_idem (c : ascii) :
  JS.toLowerChar (JS.toLowerChar c) = JS.toLowerChar c.
Proof.
  destruct c as [[] [] [] [] [] [] [] []]; reflexivity.
Qed.

Lemma toLowerCase_idem (s : string) :
  JS.toLowerCase (JS.toLowerCase s) = JS.toLowerCase s.
Proof.
  induction s as [|c s IH]; simpl; [reflexivity|].
  now rewrite toLowerChar_idem, IH.
Qed.

Lemma toLowerCase_app (a b : string) :
  JS.toLowerCase (a ++ b) = JS.toLowerCase a ++ JS.toLowerCase b.
Proof.
  induction a as [|c a IH]; simpl; [reflexivity | now rewrite IH].
Qed.

Lemma includes_empty (s : string) : JS.includes s "" = true.
Proof. destruct s; reflexivity. Qed.

(** ** More on sorting *)

Section SortExt.

Context {A : Type} (compareFn compareFn' : A -> A -> JS.number).

Lemma insertSorted_ext (x : A) (l : list A) :
  (forall y, In y l -> compareFn x y = compareFn' x y) ->
  JS.insertSorted compareFn x l = JS.insertSorted compareFn' x l.
Proof.
  induction l as [|y l IH]; intros H; simpl; [reflexivity|].
  rewrite (H y (or_introl eq_refl)).
  destruct (JS.positive (compareFn' x y)); [|reflexivity].
  f_equal. apply IH. intros z Hz. apply H. now right.
Qed.

(** Only the comparisons between elements of the list matter. *)
Lemma sort_ext_in (l : list A) :
  (forall x y, In x l -> In y l -> compareFn x y = compareFn' x y) ->
  JS.sort compareFn l = JS.sort compareFn' l.
Proof.
  induction l as [|x l IH]; intros H; simpl; [reflexivity|].
  rewrite IH by (intros; apply H; now right).
  apply insertSorted_ext. intros y Hy. apply H; [now left|].
  right. eapply Permutation_in; [apply sort_perm | exact Hy].
Qed.

End SortExt.

Section SortByKey.

Context {A : Type} (key : A -> string).

Variable localeCompare : string -> string -> Z.

Hypothesis collation : Explorer.consistentCollation localeCompare.



End SortByKey.

(** ** The list shown in the dialog *)

Section FilteredTables.

Import TableSelector.

Lemma parseTableName_name (table : string) :
  name (parseTableName table) = table.
Proof.
  unfold parseTableName.
  destruct (3 <=? _)%nat; [|reflexivity].
  destruct (JS.split "_" table) as [|y [|m [|d rest]]]; try reflexivity.
  now destruct (negb _ && negb _ && negb _).
Qed.

Lemma parseTableName_undated (table : string) :
  dated (parseTableName table) = false ->
  parseTableName table
  = {| name := table; year := None; month := None; day := None; type := None |}.
Proof.
  unfold parseTableName.
  destruct (3 <=? _)%nat; [|reflexivity].
  destruct (JS.split "_" table) as [|y [|m [|d rest]]]; try reflexivity.
  now destruct (negb _ && negb _ && negb _).
Qed.

Lemma matching_names (search : string) (tables : list string) :
  map name (filter (matchesSearch search) (map parseTableName tables))
  = filter (fun t => matchesSearch search (parseTableName t)) tables.
Proof.
  induction tables as [|t tables IH]; simpl; [reflexivity|].
  destruct (matchesSearch search (parseTableName t)); simpl;
    now rewrite ?parseTableName_name, IH.
Qed.

Variable localeCompare : string -> string -> Z.

(** The dialog lists the tables that match the search, each as often as it
    was given and parsed by [parseTableName], and nothing else; with an
    empty search it lists every table. *)
Theorem filteredTables_lists_matches (tables : list string) (search : string) :
  Permutation (map name (filteredTables localeCompare tables search))
              (filter (fun t => matchesSearch search (parseTableName t)) tables)
  /\ Forall (fun p => p = parseTableName (name p) /\ In (name p) tables)
            (filteredTables localeCompare tables search)
  /\ Permutation (map name (filteredTables localeCompare tables "")) tables.
Proof.
  assert (Hperm : forall s,
             Permutation (map name (filteredTables localeCompare tables s))
               (filter (fun t => matchesSearch s (parseTableName t)) tables)).
  { intros s. unfold filteredTables. rewrite <- matching_names.
    apply Permutation_map. apply sort_perm. }
  split; [apply Hperm|]. split.
  - apply Forall_forall. intros p Hp. unfold filteredTables in Hp.
    apply (Permutation_in _ (sort_perm _ _)) in Hp.
    apply filter_In in Hp as [Hp _].
    apply in_map_iff in Hp as (t & <- & Ht).
    now rewrite parseTableName_name.
  - rewrite Hperm.
    replace (filter _ tables) with tables; [reflexivity|].
    symmetry. apply forallb_filter_id. apply forallb_forall. intros t _.
    unfold matchesSearch. cbn [JS.toLowerCase].
    now rewrite includes_empty.
Qed.


(** A table without date fields has its date interpolated as
    [undefined-undefined-undefined]: it is listed for every search text whose
    lower case is part of that, a hyphen for one. *)
Theorem filteredTables_undated_match_undefined (tables : list string)
    (search table : string) :
  In table tables ->
  dated (parseTableName table) = false ->
  JS.includes "undefined-undefined-undefined" (JS.toLowerCase search) = true ->
  In (parseTableName table) (filteredTables localeCompare tables search).
Proof.
  intros Hin Hundated Hsearch. unfold filteredTables.
  eapply Permutation_in; [symmetry; apply sort_perm|].
  apply filter_In. split; [now apply in_map|].
  unfold matchesSearch. rewrite (parseTableName_undated _ Hundated).
  cbn [year month day type showOptional].
  change ("undefined" ++ "-" ++ "undefined" ++ "-" ++ "undefined")
    with "undefined-undefined-undefined".
  rewrite Hsearch. apply orb_true_r.
Qed.

Hypothesis collation : Explorer.consistentCollation localeCompare.


End FilteredTables.


Lemma filteredTables_undated_match_undefined_witness :
  In "notes" ["notes"; "2024_03_15_sales"]
  /\ TableSelector.dated (TableSelector.parseTableName "notes") = false
  /\ JS.includes "undefined-undefined-undefined" (JS.toLowerCase "-") = true
  /\ In (TableSelector.parseTableName "notes")
        (TableSelector.filteredTables Explorer.codeUnitCompare
           ["notes"; "2024_03_15_sales"] "-").
Proof.
  assert (Hin : In "notes" ["notes"; "2024_03_15_sales"])
    by (left; reflexivity).
  repeat split; [exact Hin|].
  apply (filteredTables_undated_match_undefined Explorer.codeUnitCompare
           ["notes"; "2024_03_15_sales"] "-" "notes" Hin); reflexivity.
Defined.


(** ** Keyboard navigation *)

Section Keyboard.

Import TableSelector.

Variables (isOpen : bool) (tables : list ParsedTable).

Lemma at_Some_In {A : Type} (l : list A) (i : Z) (x : A) :
  at_ l i = Some x -> In x l.
Proof.
  unfold at_. destruct (i <? 0)%Z; [discriminate|]. apply nth_error_In.
Qed.

Lemma handler_bounds (i : Z) (key : Key) :
  (-1 <= i <= Z.max (Z.of_nat (List.length tables) - 1) 0)%Z ->
  (-1 <= fst (handler isOpen tables i key)
      <= Z.max (Z.of_nat (List.length tables) - 1) 0)%Z
  /\ (tables <> [] -> (0 <= i)%Z ->
      (0 <= fst (handler isOpen tables i key))%Z).
Proof.
  intros Hi. unfold handler.
  assert (Hlen : tables <> [] -> (1 <= Z.of_nat (List.length tables))%Z)
    by (destruct tables; [congruence | simpl; lia]).
  destruct isOpen, key; simpl;
    try (destruct (at_ tables i); simpl);
    (split; [lia | intros Hne Hpos; specialize (Hlen Hne); lia]).
Qed.

Lemma pressAll_app (keys keys' : list Key) (i : Z) :
  fst (pressAll isOpen tables i (keys ++ keys')%list)
  = fst (pressAll isOpen tables (fst (pressAll isOpen tables i keys)) keys').
Proof.
  revert i. induction keys as [|key keys IH]; intros i; [reflexivity|].
  cbn [app pressAll].
  destruct (handler isOpen tables i key) as [j calls].
  specialize (IH j).
  destruct (pressAll isOpen tables j (keys ++ keys')%list) as [k calls'].
  destruct (pressAll isOpen tables j keys) as [k' calls''].
  exact IH.
Qed.

Lemma pressAll_app_last (keys : list Key) (i : Z) :
  tables = [] -> isOpen = true ->
  (-1 <= fst (pressAll isOpen tables i keys) <= 0)%Z ->
  fst (pressAll isOpen tables i (keys ++ [ArrowUp])%list) = 0%Z
  /\ fst (pressAll isOpen tables i (keys ++ [ArrowDown])%list) = (-1)%Z.
Proof.
  intros Hnil Hopen Hk. rewrite !pressAll_app.
  set (k := fst (pressAll isOpen tables i keys)) in *. clearbody k.
  subst tables isOpen. cbn. split; lia.
Qed.

(** The selected index stays in the range it starts in.  On a non-empty
    list that range is from -1 to the last index, and from an index that is
    not negative any run of keys ends on an index of the list.  On an empty
    list the range is from -1 to 0: the index is 0 at the start and after
    ArrowUp, which is above the last index -1, and -1 after ArrowDown. *)
Theorem pressAll_keeps_index_in_list (keys : list Key) (i : Z) :
  (-1 <= i <= Z.max (Z.of_nat (List.length tables) - 1) 0)%Z ->
  (-1 <= fst (pressAll isOpen tables i keys)
      <= Z.max (Z.of_nat (List.length tables) - 1) 0)%Z
  /\ (tables <> [] -> (0 <= i)%Z ->
      (0 <= fst (pressAll isOpen tables i keys)
          < Z.of_nat (List.length tables))%Z)
  /\ (tables = [] ->
      (fst (pressAll isOpen tables i keys) = -1
       \/ fst (pressAll isOpen tables i keys) = 0)%Z)
  /\ (tables = [] -> isOpen = true ->
      fst (pressAll isOpen tables i (keys ++ [ArrowUp])) = 0%Z
      /\ fst (pressAll isOpen tables i (keys ++ [ArrowDown])) = (-1)%Z).
Proof.
  intros Hi.
  assert (Hrange : forall ks j,
             (-1 <= j <= Z.max (Z.of_nat (List.length tables) - 1) 0)%Z ->
             (-1 <= fst (pressAll isOpen tables j ks)
                 <= Z.max (Z.of_nat (List.length tables) - 1) 0)%Z
             /\ (tables <> [] -> (0 <= j)%Z ->
                 (0 <= fst (pressAll isOpen tables j ks)
                     < Z.of_nat (List.length tables))%Z));
    [|destruct (Hrange keys i Hi) as [H1 H2];
      split; [exact H1|]; split; [exact H2|]; split;
      [intros Hnil|
       intros Hnil Hopen; apply (pressAll_app_last keys i Hnil Hopen)];
      (assert (Hlen : Z.of_nat (List.length tables) = 0%Z)
         by (rewrite Hnil; reflexivity));
      lia].
  clear i Hi keys. intros keys.
  induction keys as [|key keys IH]; intros i Hi.
  - simpl. split; [assumption|]. intros Hne Hpos.
    assert (Hlen : (1 <= Z.of_nat (List.length tables))%Z)
      by (destruct tables; [congruence | simpl; lia]).
    lia.
  - simpl. destruct (handler isOpen tables i key) as [j calls] eqn:Ej.
    pose proof (handler_bounds i key Hi) as [Hj Hj0]. rewrite Ej in Hj, Hj0.
    simpl in Hj, Hj0.
    destruct (pressAll isOpen tables j keys) as [k calls'] eqn:Ek.
    specialize (IH j Hj). rewrite Ek in IH. simpl in *.
    destruct IH as [Hk Hk0]. split; [assumption|]. auto.
Qed.

(** Whatever the index is, [onSelect] is only ever called with the name of a
    table of the list, and nothing is called while the dialog is closed. *)
Theorem pressAll_selects_listed_tables (keys : list Key) (i : Z) :
  (forall table, In (OnSelect table) (snd (pressAll isOpen tables i keys)) ->
                 In table (map name tables))
  /\ (isOpen = false -> pressAll isOpen tables i keys = (i, [])).
Proof.
  revert i. induction keys as [|key keys IH]; intros i.
  - simpl. split; [tauto | reflexivity].
  - simpl. destruct (handler isOpen tables i key) as [j calls] eqn:Ej.
    destruct (IH j) as [IHsel IHclosed].
    destruct (pressAll isOpen tables j keys) as [k calls'] eqn:Ek.
    simpl in *. split.
    + intros table Hin. apply in_app_iff in Hin as [Hin|Hin]; [|auto].
      unfold handler in Ej. destruct isOpen; simpl in Ej.
      * destruct key; try (injection Ej as <- <-; simpl in Hin; tauto).
        -- destruct (at_ tables i) as [t|] eqn:Et;
             injection Ej as <- <-; simpl in Hin; [|tauto].
           destruct Hin as [Hin|[Hin|[]]]; [|discriminate].
           injection Hin as <-. apply in_map. eapply at_Some_In; eauto.
        -- injection Ej as <- <-. destruct Hin as [Hin|[]]. discriminate.
      * injection Ej as <- <-. contradiction.
    + intros Hclosed. specialize (IHclosed Hclosed).
      injection IHclosed as Hk Hcalls'.
      rewrite Hclosed in Ej. unfold handler in Ej. simpl in Ej.
      injection Ej as Hj Hcalls. subst k calls' j calls. reflexivity.
Qed.

End Keyboard.

Lemma pressAll_keeps_index_in_list_witness :
  let tables := map TableSelector.parseTableName ["a"; "b"; "c"] in
  (-1 <= 0 <= Z.max (Z.of_nat (List.length tables) - 1) 0)%Z
  /\ (-1 <= fst (TableSelector.pressAll true tables 0
                   [TableSelector.ArrowDown; TableSelector.ArrowDown;
                    TableSelector.ArrowDown; TableSelector.ArrowDown])
         <= Z.max (Z.of_nat (List.length tables) - 1) 0)%Z.
Proof.
  intros tables.
  assert (H0 : (-1 <= 0 <= Z.max (Z.of_nat (List.length tables) - 1) 0)%Z)
    by (vm_compute; split; discriminate).
  split; [exact H0|].
  exact (proj1 (pressAll_keeps_index_in_list true tables
                  [TableSelector.ArrowDown; TableSelector.ArrowDown;
                   TableSelector.ArrowDown; TableSelector.ArrowDown] 0 H0)).
Defined.

(** ** splice *)

Section Splice.

Context {A : Type}.

Implicit Types (l r : list A) (x : A).

Lemma spliceOut_split l1 x l2 :
  JS.spliceOut (List.length l1) (l1 ++ x :: l2)%list = (Some x, (l1 ++ l2)%list).
Proof.
  unfold JS.spliceOut. f_equal.
  - rewrite nth_error_app2 by lia. now rewrite Nat.sub_diag.
  - rewrite firstn_app, firstn_all, Nat.sub_diag. cbn [firstn].
    rewrite app_nil_r. f_equal.
    rewrite skipn_app, skipn_all2 by lia.
    replace (S (List.length l1) - List.length l1) with 1 by lia.
    reflexivity.
Qed.

Lemma spliceIn_split l1 x l2 :
  JS.spliceIn (List.length l1) x (l1 ++ l2)%list = (l1 ++ x :: l2)%list.
Proof.
  unfold JS.spliceIn.
  rewrite firstn_app, firstn_all, Nat.sub_diag. cbn [firstn].
  rewrite app_nil_r. f_equal.
  rewrite skipn_app, skipn_all, Nat.sub_diag. reflexivity.
Qed.

Lemma spliceIn_clamp j x r :
  JS.spliceIn j x r = JS.spliceIn (Nat.min j (List.length r)) x r.
Proof.
  destruct (Nat.le_gt_cases j (List.length r)) as [H|H].
  - now rewrite Nat.min_l.
  - rewrite Nat.min_r by lia. unfold JS.spliceIn.
    rewrite firstn_all, skipn_all, firstn_all2, skipn_all2 by lia.
    reflexivity.
Qed.

Lemma spliceIn_perm j x r : Permutation (JS.spliceIn j x r) (x :: r).
Proof.
  unfold JS.spliceIn. rewrite <- (firstn_skipn j r) at 3.
  symmetry. apply Permutation_middle.
Qed.

(** Taking out what was put in gives back the list. *)
Lemma spliceOut_spliceIn j x r :
  JS.spliceOut (Nat.min j (List.length r)) (JS.spliceIn j x r) = (Some x, r).
Proof.
  rewrite spliceIn_clamp.
  assert (H : exists l1 l2,
             r = (l1 ++ l2)%list /\ List.length l1 = Nat.min j (List.length r)).
  { exists (firstn (Nat.min j (List.length r)) r),
           (skipn (Nat.min j (List.length r)) r).
    split; [now rewrite firstn_skipn | rewrite length_firstn; lia]. }
  destruct H as (l1 & l2 & Hr & Hlen). rewrite <- Hlen. subst r.
  rewrite spliceIn_split. apply spliceOut_split.
Qed.

(** Putting back what was taken out gives back the list. *)
Lemma spliceIn_spliceOut i x l :
  nth_error l i = Some x ->
  JS.spliceIn i x (snd (JS.spliceOut i l)) = l.
Proof.
  intros H. apply nth_error_split in H as (l1 & l2 & -> & <-).
  rewrite spliceOut_split. cbn [snd]. apply spliceIn_split.
Qed.

Lemma spliceOut_perm i x l :
  nth_error l i = Some x ->
  Permutation l (x :: snd (JS.spliceOut i l)).
Proof.
  intros H. apply nth_error_split in H as (l1 & l2 & -> & <-).
  rewrite spliceOut_split. cbn [snd]. symmetry. apply Permutation_middle.
Qed.

End Splice.

(** ** The handlers of the QueryBuilder *)

Section Handlers.

Import QueryBuilder.

Variable autoAlias : bool.

Lemma withSelectedFields_same (s : QueryBuilderState) :
  withSelectedFields (selectedFields s) s = s.
Proof. now destruct s. Qed.

Lemma withSelectedFields_twice (fs gs : list QueryField) (s : QueryBuilderState) :
  withSelectedFields fs (withSelectedFields gs s) = withSelectedFields fs s.
Proof. reflexivity. Qed.

(** A drag from [startIndex] to [endIndex] moves the field at [startIndex]
    to [endIndex], or to the end when [endIndex] is beyond it, and keeps the
    order of the others; the selection is permuted and nothing else of the
    state changes.  A drag from an index at which no field is selected
    throws. *)
Theorem handleFieldReorder_moves (state : QueryBuilderState)
    (startIndex endIndex : nat) :
  (startIndex < List.length (selectedFields state) ->
   exists moved newState,
     nth_error (selectedFields state) startIndex = Some moved
     /\ handleFieldReorder state autoAlias startIndex endIndex
        = Some (newState, updateQueryFromState state autoAlias newState)
     /\ newState = withSelectedFields (selectedFields newState) state
     /\ Permutation (selectedFields newState) (selectedFields state)
     /\ JS.spliceOut (Nat.min endIndex (List.length (selectedFields state) - 1))
                     (selectedFields newState)
        = (Some moved, snd (JS.spliceOut startIndex (selectedFields state))))
  /\ (List.length (selectedFields state) <= startIndex ->
      handleFieldReorder state autoAlias startIndex endIndex = None).
Proof.
  unfold handleFieldReorder. split.
  - intros Hlt.
    destruct (nth_error (selectedFields state) startIndex) as [moved|] eqn:E;
      [|apply nth_error_None in E; lia].
    exists moved. eexists. split; [reflexivity|].
    unfold JS.spliceOut at 1. rewrite E. split; [reflexivity|].
    cbn [selectedFields withSelectedFields]. split; [reflexivity|]. split.
    + rewrite spliceIn_perm. symmetry.
      apply (spliceOut_perm startIndex moved _ E).
    + pose proof (spliceOut_spliceIn endIndex moved
                    (firstn startIndex (selectedFields state)
                     ++ skipn (S startIndex) (selectedFields state))%list) as H.
      replace (List.length
                 (firstn startIndex (selectedFields state)
                  ++ skipn (S startIndex) (selectedFields state))%list)
        with (List.length (selectedFields state) - 1) in H; [exact H|].
      rewrite length_app, length_firstn, length_skipn. lia.
  - intros Hge. apply nth_error_None in Hge.
    unfold JS.spliceOut. now rewrite Hge.
Qed.

(** Dragging a field from [i] to [j] and back from [j] to [i] restores the
    state. *)
Theorem handleFieldReorder_there_and_back (state : QueryBuilderState)
    (i j : nat) :
  i < List.length (selectedFields state) ->
  j < List.length (selectedFields state) ->
  exists state' report report',
    handleFieldReorder state autoAlias i j = Some (state', report)
    /\ handleFieldReorder state' autoAlias j i = Some (state, report').
Proof.
  intros Hi Hj. unfold handleFieldReorder.
  destruct (nth_error (selectedFields state) i) as [moved|] eqn:E;
    [|apply nth_error_None in E; lia].
  unfold JS.spliceOut at 1. rewrite E.
  do 3 eexists. split; [reflexivity|].
  cbn [selectedFields withSelectedFields].
  set (rest := (firstn i (selectedFields state)
                ++ skipn (S i) (selectedFields state))%list).
  assert (Hrest : List.length rest = List.length (selectedFields state) - 1).
  { subst rest. rewrite length_app, length_firstn, length_skipn. lia. }
  pose proof (spliceOut_spliceIn j moved rest) as Hout.
  rewrite Nat.min_l in Hout by lia. rewrite Hout.
  pose proof (spliceIn_spliceOut i moved (selectedFields state) E) as Hin.
  unfold JS.spliceOut in Hin. cbn [snd] in Hin. fold rest in Hin.
  rewrite Hin.
  replace (withSelectedFields (selectedFields state)
             (withSelectedFields (JS.spliceIn j moved rest) state))
    with state by (now destruct state).
  reflexivity.
Qed.

(** *** Clicks on the schema fields *)

Lemma isSelected_app (fs gs : list QueryField) (name : string) :
  isSelected (fs ++ gs) name = isSelected fs name || isSelected gs name.
Proof. unfold isSelected. apply existsb_app. Qed.

Lemma isSelected_removed (fs : list QueryField) (removed name : string) :
  isSelected (filter (fun f => negb (String.eqb (fieldName f) removed)) fs) name
  = negb (String.eqb name removed) && isSelected fs name.
Proof.
  unfold isSelected. induction fs as [|f fs IH]; simpl.
  - now rewrite andb_false_r.
  - destruct (String.eqb_spec (fieldName f) removed) as [Hf|Hf]; simpl.
    + rewrite IH. destruct (String.eqb_spec (fieldName f) name) as [Hn|Hn];
        simpl; [|reflexivity].
      destruct (String.eqb_spec name removed) as [E|E]; [reflexivity|].
      congruence.
    + rewrite IH. destruct (String.eqb_spec (fieldName f) name) as [Hn|Hn];
        simpl; [|reflexivity].
      destruct (String.eqb_spec name removed) as [E|E]; [congruence|].
      reflexivity.
Qed.

Lemma not_selected_filter (fs : list QueryField) (name : string) :
  isSelected fs name = false ->
  filter (fun f => negb (String.eqb (fieldName f) name)) fs = fs.
Proof.
  unfold isSelected. induction fs as [|f fs IH]; simpl; [reflexivity|].
  intros H. apply orb_false_iff in H as [Hf Hfs].
  rewrite Hf. simpl. now rewrite IH.
Qed.


(** A click toggles the field: afterwards the clicked name is selected
    exactly when it was not before, and every other name as before. *)
Theorem clickField_toggles (state : QueryBuilderState) (clicked name : string) :
  isSelected (selectedFields (fst (clickField state autoAlias clicked))) name
  = if String.eqb name clicked
    then negb (isSelected (selectedFields state) clicked)
    else isSelected (selectedFields state) name.
Proof.
  unfold clickField.
  destruct (isSelected (selectedFields state) clicked) eqn:E;
    cbn [fst handleFieldRemove handleFieldSelect selectedFields
         withSelectedFields].
  - rewrite isSelected_removed.
    destruct (String.eqb_spec name clicked); reflexivity.
  - rewrite isSelected_app. unfold isSelected at 2. cbn.
    rewrite orb_false_r, (String.eqb_sym clicked name).
    destruct (String.eqb_spec name clicked) as [->|Hne].
    + now rewrite E.
    + apply orb_false_r.
Qed.

(** Clicking twice on a field that is not selected restores the state. *)
Theorem clickField_twice (state : QueryBuilderState) (name : string) :
  isSelected (selectedFields state) name = false ->
  fst (clickField (fst (clickField state autoAlias name)) autoAlias name)
  = state.
Proof.
  intros H. unfold clickField at 2. rewrite H.
  cbn [fst handleFieldSelect]. unfold clickField.
  cbn [selectedFields withSelectedFields].
  rewrite isSelected_app, H. unfold isSelected at 1. cbn.
  rewrite String.eqb_refl. cbn [orb fst handleFieldRemove selectedFields
                                  withSelectedFields].
  rewrite filter_app, (not_selected_filter _ _ H). cbn.
  rewrite String.eqb_refl. cbn. rewrite app_nil_r.
  now destruct state.
Qed.

End Handlers.

Lemma handleFieldReorder_there_and_back_witness :
  let state :=
    QueryBuilder.withSelectedFields
      [QueryBuilder.plainField "a"; QueryBuilder.plainField "b";
       QueryBuilder.plainField "c"] QueryBuilder.emptyState in
  0 < List.length (QueryBuilder.selectedFields state)
  /\ 2 < List.length (QueryBuilder.selectedFields state)
  /\ exists state' report report',
       QueryBuilder.handleFieldReorder state true 0 2 = Some (state', report)
       /\ QueryBuilder.handleFieldReorder state' true 2 0 = Some (state, report').
Proof.
  intros state.
  assert (H0 : 0 < List.length (QueryBuilder.selectedFields state))
    by (simpl; lia).
  assert (H2 : 2 < List.length (QueryBuilder.selectedFields state))
    by (simpl; lia).
  split; [exact H0|]. split; [exact H2|].
  exact (handleFieldReorder_there_and_back true state 0 2 H0 H2).
Defined.

Lemma clickField_twice_witness :
  let state :=
    QueryBuilder.withSelectedFields [QueryBuilder.plainField "a"]
                                    QueryBuilder.emptyState in
  QueryBuilder.isSelected (QueryBuilder.selectedFields state) "b" = false
  /\ fst (QueryBuilder.clickField
            (fst (QueryBuilder.clickField state true "b")) true "b") = state.
Proof.
  intros state. split; [reflexivity|].
  apply (clickField_twice true state "b"). reflexivity.
Defined.

(** ** What the component can reach *)

Section Reachable.

Import QueryBuilder.

Variable autoAlias : bool.






(** The text reported when a switch is flipped is the text of the setting
    before: flipping Auto-alias or Distinct reports what the state compiled
    to already, and the new Distinct setting shows in the text of the next
    action that leaves a field selected. *)
Theorem switches_take_effect_late (state : QueryBuilderState) (checked : bool) :
  snd (onAutoAliasChange state autoAlias checked)
  = updateQueryFromState state autoAlias state
  /\ fst (snd (onDistinctChange state autoAlias checked))
     = fst (updateQueryFromState state autoAlias state)
  /\ (forall name,
        selectedFields
          (fst (clickField (fst (onDistinctChange state autoAlias checked))
                           autoAlias name)) <> [] ->
        JS.startsWith
          (fst (snd (clickField (fst (onDistinctChange state autoAlias checked))
                                autoAlias name)))
          "SELECT DISTINCT"
        = checked).
Proof.
  split; [reflexivity|]. split.
  { unfold onDistinctChange, updateQueryFromState.
    cbn [snd selectedFields withDistinct].
    destruct (selectedFields state); reflexivity. }
  intros name Hsel. unfold clickField in *.
  destruct (isSelected _ name);
    cbn [fst snd handleFieldRemove handleFieldSelect] in *;
    now rewrite updateQueryFromState_distinct_of_closure.
Qed.

(** Clauses that hold nothing compile to nothing: the text of a state is
    the text of the state without a [where] that has no conditions, a
    [groupBy] that has no fields (and its [having] with it) and an empty
    [orderBy]. *)
Theorem updateQueryFromState_drops_empty_clauses
    (state newState : QueryBuilderState) :
  fst (updateQueryFromState state autoAlias newState)
  = fst (updateQueryFromState state autoAlias (dropEmptyClauses newState)).
Proof.
  unfold updateQueryFromState.
  change (selectedFields (dropEmptyClauses newState))
    with (selectedFields newState).
  destruct (selectedFields newState) as [|f fs]; [reflexivity|].
  cbn [fst].
  change (joinsText (dropEmptyClauses newState)) with (joinsText newState).
  change (limitText (dropEmptyClauses newState)) with (limitText newState).
  assert (Hw : whereText (dropEmptyClauses newState) = whereText newState).
  { unfold whereText, dropEmptyClauses. cbn [where_].
    destruct (where_ newState) as [w|]; [|reflexivity].
    destruct (conditions w) eqn:E; [reflexivity|]. now rewrite E. }
  assert (Hg : groupByText (dropEmptyClauses newState) = groupByText newState).
  { unfold groupByText, dropEmptyClauses. cbn [groupBy].
    destruct (groupBy newState) as [g|]; [|reflexivity].
    destruct (fields g) eqn:E; [reflexivity|]. now rewrite E. }
  assert (Ho : orderByText (dropEmptyClauses newState) = orderByText newState).
  { unfold orderByText, dropEmptyClauses. cbn [orderBy].
    destruct (orderBy newState) as [[|o os]|]; reflexivity. }
  now rewrite Hw, Hg, Ho.
Qed.

End Reachable.


(** ** Nothing is lost in the groups *)

Section FlatPermutation.

Context {V X : Type}.

Implicit Types (f g : V -> list X) (o : JS.obj V).

Lemma flat_cons f (e : string * V) o :
  JS.flat f (e :: o) = (f (snd e) ++ JS.flat f o)%list.
Proof. reflexivity. Qed.

Lemma flat_perm f o o' :
  Permutation o o' -> Permutation (JS.flat f o) (JS.flat f o').
Proof.
  induction 1 as [|e o o' _ IH|e e' o|o1 o2 o3 _ IH1 _ IH2].
  - reflexivity.
  - rewrite !flat_cons. now apply Permutation_app_head.
  - rewrite !flat_cons, !app_assoc. apply Permutation_app_tail.
    apply Permutation_app_comm.
  - etransitivity; eauto.
Qed.

Lemma flat_perm_pointwise f g o :
  (forall e, In e o -> Permutation (f (snd e)) (g (snd e))) ->
  Permutation (JS.flat f o) (JS.flat g o).
Proof.
  induction o as [|e o IH]; intros H; [reflexivity|].
  rewrite !flat_cons. apply Permutation_app.
  - apply H. now left.
  - apply IH. intros e' He'. apply H. now right.
Qed.

(** Storing under [k] a value that holds what was there and [t] adds one
    [t] to what the dictionary holds. *)
Lemma flat_set_perm f (k : string) (v : V) o (t : X) :
  Permutation (f v)
    (t :: match JS.get k o with Some v0 => f v0 | None => [] end) ->
  Permutation (JS.flat f (JS.set k v o)) (t :: JS.flat f o).
Proof.
  induction o as [|[k' v'] o IH]; cbn [JS.get JS.set]; intros H.
  - unfold JS.flat. cbn. now rewrite app_nil_r.
  - destruct (String.eqb k k').
    + rewrite !flat_cons. cbn [snd]. rewrite H. reflexivity.
    + rewrite !flat_cons. cbn [snd]. rewrite (IH H).
      symmetry. apply Permutation_middle.
Qed.

End FlatPermutation.

Section NothingLost.

Import Explorer.

Variable localeCompare : string -> string -> Z.

Lemma forEachDataset_perm (datasets : list string) :
  forall groups : JS.obj (list string),
    Permutation (JS.flat (fun ds => ds) (fold_left addDataset datasets groups))
                (datasets ++ JS.flat (fun ds => ds) groups).
Proof.
  induction datasets as [|d datasets IH]; intros groups; [reflexivity|].
  cbn [fold_left]. rewrite IH, addDataset_eq.
  rewrite (flat_set_perm (fun ds => ds) _ _ groups d).
  - symmetry. apply Permutation_middle.
  - destruct (JS.get (categoryOf d) groups); cbn [JS.orEmpty].
    + symmetry. apply Permutation_cons_append.
    + reflexivity.
Qed.

(** [groupDatasets] neither loses nor repeats a dataset: the names of all
    groups together are the datasets given, each as often as it was given;
    and no group is made for nothing given. *)
Theorem groupDatasets_keeps_every_dataset (datasets : list string) :
  Permutation
    (concat (map Explorer.datasets (groupDatasets localeCompare (Some datasets))))
    datasets
  /\ groupDatasets localeCompare (Some []) = []
  /\ groupDatasets localeCompare None = [].
Proof.
  split; [|split; reflexivity].
  unfold groupDatasets. rewrite map_map. cbn [Explorer.datasets].
  set (G := fold_left addDataset datasets []).
  change (concat (map (fun x => JS.sort JS.defaultCompare (snd x)) ?l))
    with (JS.flat (JS.sort JS.defaultCompare) l).
  rewrite (flat_perm_pointwise (JS.sort JS.defaultCompare) (fun ds => ds))
    by (intros; apply sort_perm).
  rewrite (flat_perm (fun ds => ds) _ G)
    by (etransitivity; [apply sort_perm | apply entries_perm]).
  subst G. rewrite forEachDataset_perm. unfold JS.flat. cbn.
  now rewrite app_nil_r.
Qed.

Lemma pushTable_perm (groups : JS.obj (JS.obj (list string)))
    (year month table : string) :
  Permutation
    (tablesIn
       (JS.set year
          (JS.set month
             (JS.orEmpty (JS.get month (JS.orEmpty (JS.get year groups)))
              ++ [table])%list
             (JS.orEmpty (JS.get year groups)))
          groups))
    (table :: tablesIn groups).
Proof.
  unfold tablesIn. apply flat_set_perm.
  assert (H : Permutation
                (JS.flat (fun ts => ts)
                   (JS.set month
                      (JS.orEmpty (JS.get month (JS.orEmpty (JS.get year groups)))
                       ++ [table])%list
                      (JS.orEmpty (JS.get year groups))))
                (table :: JS.flat (fun ts : list string => ts)
                            (JS.orEmpty (JS.get year groups)))).
  { apply flat_set_perm.
    destruct (JS.get month (JS.orEmpty (JS.get year groups))); cbn [JS.orEmpty].
    - symmetry. apply Permutation_cons_append.
    - reflexivity. }
  rewrite H. destruct (JS.get year groups); reflexivity.
Qed.

Lemma forEachTable_perm (tables : list string) :
  forall groups groups' : JS.obj (JS.obj (list string)),
    forEachTable tables groups = Some groups' ->
    Permutation (tablesIn groups')
                (filter datedLooking tables ++ tablesIn groups).
Proof.
  induction tables as [|table tables IH]; intros groups groups' H.
  - injection H as <-. reflexivity.
  - cbn [forEachTable] in H.
    destruct (addTable groups table) as [g1|] eqn:E; [|discriminate].
    rewrite (IH _ _ H). cbn [filter]. unfold addTable in E.
    unfold datedLooking at 2.
    destruct (3 <=? List.length (JS.split "_" table))%nat.
    + destruct (JS.inherited (nth 0 (JS.split "_" table) "")
                || JS.inherited (nth 1 (JS.split "_" table) "")) eqn:Hplain;
        [unfold pushTable in E; rewrite Hplain in E; discriminate|].
      rewrite (pushTable_eq _ _ _ _ Hplain) in E. injection E as <-.
      rewrite pushTable_perm. cbn. symmetry. apply Permutation_middle.
    + injection E as <-. reflexivity.
Qed.

(** For a list of tables whose year and month segments are no names
    inherited from [Object.prototype], [groupTablesByDate] returns groups,
    and it neither loses nor repeats a table of three segments or more: the
    tables of all months together are those tables of the list, each as
    often as it was given. *)
Theorem groupTablesByDate_keeps_every_table (tables : list string) :
  forallb plainSegments tables = true ->
  exists groups,
    groupTablesByDate localeCompare (Some tables) = Some groups
    /\ Permutation (tablesOf groups) (filter datedLooking tables).
Proof.
  intros Hcovered.
  destruct (groupTablesByDate localeCompare (Some tables)) as [groups|] eqn:Hret;
    [|now apply (groupTablesByDate_returns localeCompare tables) in Hcovered].
  exists groups. split; [reflexivity|]. revert Hret.
  unfold groupTablesByDate.
  destruct (forEachTable tables []) as [G|] eqn:E; [|discriminate].
  intros H. injection H as <-.
  pose proof (forEachTable_plain _ _ _ E) as Hplain.
  destruct (forEachTable_members tables []
              (conj (NoDup_nil _) (Forall_nil _)) Hplain)
    as (G' & HG' & [_ Hall] & _).
  rewrite E in HG'. injection HG' as <-.
  transitivity (tablesIn G);
    [|rewrite (forEachTable_perm _ _ _ E);
      change (tablesIn []) with (@nil string); now rewrite app_nil_r].
  unfold tablesOf. rewrite map_map. cbn [months].
  match goal with
  | |- Permutation (concat (map _ ?l)) _ =>
      change (Permutation
                (JS.flat (fun ms => JS.flat (fun ts : list string => ts)
                            (JS.entries (JS.fromEntries
                               (JS.sort compareMonths (JS.entries ms))))) l)
                (tablesIn G))
  end.
  assert (HL : Permutation
                 (JS.sort (compareYears localeCompare) (JS.entries G)) G)
    by (etransitivity; [apply sort_perm | apply entries_perm]).
  rewrite (flat_perm _ _ _ HL). unfold tablesIn.
  apply flat_perm_pointwise. intros e He.
  rewrite Forall_forall in Hall.
  rewrite fromEntries_NoDup.
  - apply flat_perm. etransitivity; [apply entries_perm|].
    etransitivity; [apply sort_perm | apply entries_perm].
  - eapply Permutation_NoDup; [|exact (Hall e He)].
    apply Permutation_map. symmetry.
    etransitivity; [apply sort_perm | apply entries_perm].
Qed.

End NothingLost.

(** ** The tables of a month, in the order given *)

Section GroupedByDate.

Import Explorer.

Lemma tablesOfMonth_app (y m : string) (seen : list string) (t : string) :
  tablesOfMonth y m (seen ++ [t])%list
  = (tablesOfMonth y m seen
     ++ if datedLooking t
           && String.eqb (nth 0 (JS.split "_" t) "") y
           && String.eqb (nth 1 (JS.split "_" t) "") m
        then [t] else [])%list.
Proof.
  unfold tablesOfMonth. rewrite filter_app. cbn [filter].
  now destruct (datedLooking t && _ && _).
Qed.

Lemma tablesOfMonth_other (y m : string) (seen : list string) (t : string) :
  datedLooking t = false
  \/ nth 0 (JS.split "_" t) "" <> y
  \/ nth 1 (JS.split "_" t) "" <> m ->
  tablesOfMonth y m (seen ++ [t])%list = tablesOfMonth y m seen.
Proof.
  intros H. rewrite tablesOfMonth_app.
  destruct H as [H|[H|H]].
  - rewrite H. cbn. apply app_nil_r.
  - apply String.eqb_neq in H. rewrite H, andb_false_r. cbn. apply app_nil_r.
  - apply String.eqb_neq in H. rewrite H, andb_false_r. apply app_nil_r.
Qed.

Lemma groupedByDate_nil : groupedByDate [] [].
Proof.
  split; [constructor|]. split.
  - intros y ms [].
  - intros t [].
Qed.

Lemma groupedByDate_skip (groups : JS.obj (JS.obj (list string)))
    (seen : list string) (t : string) :
  groupedByDate groups seen ->
  datedLooking t = false ->
  groupedByDate groups (seen ++ [t])%list.
Proof.
  intros (Hkeys & Hin & Hcov) Ht. split; [assumption|]. split.
  - intros y ms Hy. destruct (Hin y ms Hy) as [Hnd Hms]. split; [assumption|].
    intros m ts Hm. rewrite tablesOfMonth_other by now left. now apply Hms.
  - intros t' Ht' Hd. apply in_app_iff in Ht' as [Ht'|[<-|[]]]; [auto|].
    congruence.
Qed.

Lemma groupedByDate_push (groups : JS.obj (JS.obj (list string)))
    (seen : list string) (t : string) :
  groupedByDate groups seen ->
  datedLooking t = true ->
  groupedByDate
    (JS.set (nth 0 (JS.split "_" t) "")
       (JS.set (nth 1 (JS.split "_" t) "")
          (JS.orEmpty (JS.get (nth 1 (JS.split "_" t) "")
                         (JS.orEmpty (JS.get (nth 0 (JS.split "_" t) "") groups)))
           ++ [t])%list
          (JS.orEmpty (JS.get (nth 0 (JS.split "_" t) "") groups)))
       groups)
    (seen ++ [t])%list.
Proof.
  intros (Hkeys & Hin & Hcov) Ht.
  set (y0 := nth 0 (JS.split "_" t) "").
  set (m0 := nth 1 (JS.split "_" t) "").
  set (ms0 := JS.orEmpty (JS.get y0 groups)).
  set (old := JS.orEmpty (JS.get m0 ms0)).
  assert (Hms0 : NoDup (map fst ms0)
                 /\ forall m ts, In (m, ts) ms0 ->
                                 ts = tablesOfMonth y0 m seen /\ ts <> []).
  { subst ms0. destruct (JS.get y0 groups) as [ms|] eqn:Ey; cbn [JS.orEmpty].
    - apply Hin. now apply get_Some_In.
    - split; [constructor | intros m ts []]. }
  destruct Hms0 as [Hnd0 Hold0].
  assert (Hold : old = tablesOfMonth y0 m0 seen).
  { subst old. destruct (JS.get m0 ms0) as [ts|] eqn:Em; cbn [JS.orEmpty].
    - apply Hold0. now apply get_Some_In.
    - symmetry. apply filter_none. intros t' Ht'.
      destruct (datedLooking t') eqn:Hd; [|reflexivity].
      destruct (String.eqb_spec (nth 0 (JS.split "_" t') "") y0) as [Ey|];
        [|reflexivity].
      destruct (String.eqb_spec (nth 1 (JS.split "_" t') "") m0) as [Em'|];
        [|reflexivity].
      exfalso. destruct (Hcov t' Ht' Hd) as (ms & Hget & Hm).
      rewrite Ey in Hget. rewrite Em' in Hm.
      subst ms0. rewrite Hget in Em. cbn [JS.orEmpty] in Em. contradiction. }
  split; [now apply keys_set_NoDup|]. split.
  - intros y ms Hy. apply (In_set _ _ _ _ Hkeys) in Hy.
    destruct Hy as [Heq|[Hy Hne]].
    + injection Heq as -> ->. split; [now apply keys_set_NoDup|].
      intros m ts Hm. apply (In_set _ _ _ _ Hnd0) in Hm.
      destruct Hm as [Heq|[Hm Hne]].
      * injection Heq as -> ->. rewrite tablesOfMonth_app.
        fold y0 m0. rewrite Ht, !String.eqb_refl. cbn [andb].
        rewrite Hold. split; [reflexivity|].
        intros Habs. now apply app_eq_nil in Habs as [_ Habs].
      * cbn [fst] in Hne. rewrite tablesOfMonth_other by (right; right; auto).
        now apply Hold0.
    + cbn [fst] in Hne. destruct (Hin y ms Hy) as [Hnd Hms].
      split; [assumption|]. intros m ts Hm.
      rewrite tablesOfMonth_other by (right; left; auto). now apply Hms.
  - intros t' Ht' Hd.
    destruct (String.eqb_spec (nth 0 (JS.split "_" t') "") y0) as [Ey|Ey].
    + rewrite Ey, get_set_same. eexists. split; [reflexivity|].
      destruct (String.eqb_spec (nth 1 (JS.split "_" t') "") m0) as [Em|Em].
      * rewrite Em, get_set_same. discriminate.
      * rewrite get_set_other by assumption.
        apply in_app_iff in Ht' as [Ht'|[<-|[]]]; [|now elim Em].
        destruct (Hcov t' Ht' Hd) as (ms & Hget & Hm).
        rewrite Ey in Hget. subst ms0. now rewrite Hget.
    + rewrite get_set_other by assumption.
      apply in_app_iff in Ht' as [Ht'|[<-|[]]]; [auto|now elim Ey].
Qed.

Lemma forEachTable_grouped (tables : list string) :
  forall (groups groups' : JS.obj (JS.obj (list string))) (seen : list string),
    groupedByDate groups seen ->
    forEachTable tables groups = Some groups' ->
    groupedByDate groups' (seen ++ tables)%list.
Proof.
  induction tables as [|t tables IH]; intros groups groups' seen Hg H.
  - injection H as <-. now rewrite app_nil_r.
  - cbn [forEachTable] in H.
    destruct (addTable groups t) as [g1|] eqn:E; [|discriminate].
    change (t :: tables) with ([t] ++ tables)%list. rewrite app_assoc.
    apply (IH g1); [|assumption].
    unfold addTable in E.
    destruct (3 <=? List.length (JS.split "_" t))%nat eqn:Hd.
    + destruct (JS.inherited (nth 0 (JS.split "_" t) "")
                || JS.inherited (nth 1 (JS.split "_" t) "")) eqn:Hplain;
        [unfold pushTable in E; rewrite Hplain in E; discriminate|].
      rewrite (pushTable_eq _ _ _ _ Hplain) in E. injection E as <-.
      now apply groupedByDate_push.
    + injection E as <-. now apply groupedByDate_skip.
Qed.

Variable localeCompare : string -> string -> Z.


End GroupedByDate.

(** ** The order of the months of a year *)

Section MonthOrder.

Import Explorer.

Lemma parseInt10_digit (c : ascii) (s : string) :
  JS.isDigit c = true ->
  JS.parseInt10 (String c s) = JS.Num (JS.digitsValue 0 (String c s)).
Proof.
  destruct c as [[] [] [] [] [] [] [] []]; intros H;
    try discriminate H; reflexivity.
Qed.

Lemma isArrayIndex_digit (k : string) :
  JS.isArrayIndex k = true ->
  exists c s, k = String c s /\ JS.isDigit c = true.
Proof.
  intros H. destruct k as [|c s]; [discriminate|].
  exists c, s. split; [reflexivity|].
  destruct c as [[] [] [] [] [] [] [] []]; try reflexivity;
    simpl in H; discriminate H.
Qed.

(** A month named by an array index sorts by the number it writes. *)
Lemma monthValue_index (k : string) :
  JS.isArrayIndex k = true ->
  JS.parseInt10 k = JS.Num (JS.digitsValue 0 k)
  /\ monthValue k = JS.digitsValue 0 k.
Proof.
  intros H. destruct (isArrayIndex_digit k H) as (c & s & -> & Hc).
  unfold monthValue. now rewrite (parseInt10_digit c s Hc).
Qed.

Lemma filter_all {A : Type} (p : A -> bool) (l : list A) :
  (forall x, In x l -> p x = true) -> filter p l = l.
Proof.
  induction l as [|x l IH]; simpl; intros H; [reflexivity|].
  rewrite (H x (or_introl eq_refl)). f_equal. auto.
Qed.

Lemma StronglySorted_filter {A : Type} (R : A -> A -> Prop) (p : A -> bool)
    (l : list A) :
  StronglySorted R l -> StronglySorted R (filter p l).
Proof.
  induction 1 as [|a l Hs IH Ha]; simpl; [constructor|].
  destruct (p a); [|assumption]. constructor; [assumption|].
  rewrite Forall_forall in *. intros x Hx. apply Ha.
  now apply filter_In in Hx as [Hx _].
Qed.

Section Entries.

Context {V : Type}.

Lemma insertAllIndex_perm (l : list (string * V)) :
  Permutation (fold_right JS.insertIndex [] l) l.
Proof.
  induction l as [|kv l IH]; simpl; [reflexivity|].
  rewrite insertIndex_perm. now constructor.
Qed.

Lemma insertIndex_sorted (kv : string * V) (l : list (string * V)) :
  StronglySorted
    (fun a b => (JS.digitsValue 0 (fst a) <= JS.digitsValue 0 (fst b))%Z) l ->
  StronglySorted
    (fun a b => (JS.digitsValue 0 (fst a) <= JS.digitsValue 0 (fst b))%Z)
    (JS.insertIndex kv l).
Proof.
  induction 1 as [|kv' l Hs IH Hkv']; simpl; [repeat constructor|].
  destruct (Z.ltb_spec (JS.digitsValue 0 (fst kv)) (JS.digitsValue 0 (fst kv'))).
  - constructor; [now constructor|]. constructor; [lia|].
    eapply Forall_impl; [|exact Hkv']. cbn beta. intros; lia.
  - constructor; [assumption|].
    eapply Permutation_Forall; [symmetry; apply insertIndex_perm|].
    constructor; [lia | assumption].
Qed.

Lemma insertAllIndex_sorted (l : list (string * V)) :
  StronglySorted
    (fun a b => (JS.digitsValue 0 (fst a) <= JS.digitsValue 0 (fst b))%Z)
    (fold_right JS.insertIndex [] l).
Proof.
  induction l as [|kv l IH]; simpl; [constructor|].
  now apply insertIndex_sorted.
Qed.

(** [Object.entries] lists the array indices before all other names. *)
Lemma entries_keys_split (o : JS.obj V) :
  filter JS.isArrayIndex (map fst (JS.entries o))
  = map fst (fold_right JS.insertIndex []
               (filter (fun kv => JS.isArrayIndex (fst kv)) o))
  /\ filter (fun k => negb (JS.isArrayIndex k)) (map fst (JS.entries o))
     = map fst (filter (fun kv => negb (JS.isArrayIndex (fst kv))) o).
Proof.
  unfold JS.entries. rewrite map_app, !filter_app.
  assert (HI : forall k,
             In k (map fst (fold_right JS.insertIndex []
                              (filter (fun kv => JS.isArrayIndex (fst kv)) o))) ->
             JS.isArrayIndex k = true).
  { intros k Hk. apply in_map_iff in Hk as (kv & <- & Hkv).
    apply (Permutation_in _ (insertAllIndex_perm _)) in Hkv.
    now apply filter_In in Hkv as [_ Hkv]. }
  assert (HO : forall k,
             In k (map fst (filter (fun kv => negb (JS.isArrayIndex (fst kv))) o)) ->
             JS.isArrayIndex k = false).
  { intros k Hk. apply in_map_iff in Hk as (kv & <- & Hkv).
    apply filter_In in Hkv as [_ Hkv]. now apply negb_true_iff in Hkv. }
  split.
  - rewrite (filter_all _ _ HI), (filter_none JS.isArrayIndex _ HO).
    apply app_nil_r.
  - rewrite (filter_none (fun k => negb (JS.isArrayIndex k))), filter_all.
    + reflexivity.
    + intros k Hk. now rewrite (HO k Hk).
    + intros k Hk. now rewrite (HI k Hk).
Qed.

End Entries.

Variable localeCompare : string -> string -> Z.

(** For a list of tables whose year and month segments are no names
    inherited from [Object.prototype], the months of a returned year are
    listed in two runs: first the months named by array indices (as 10, 11
    and 12 are), in ascending order of their numbers, then the other months
    (as 01 to 09 are); and these come in descending order of the numbers
    [parseInt] reads in them, provided it reads a safe integer in each of
    them (beyond 2^53 the doubles of the source no longer tell all numbers
    apart). *)
Theorem groupTablesByDate_month_order (tables : list string) :
  forallb plainSegments tables = true ->
  exists groups,
    groupTablesByDate localeCompare (Some tables) = Some groups
    /\ forall g, In g groups ->
         let shown := map fst (JS.entries (months g)) in
         shown = (filter JS.isArrayIndex shown
                  ++ filter (fun m => negb (JS.isArrayIndex m)) shown)%list
         /\ StronglySorted (fun a b => (monthValue a <= monthValue b)%Z)
              (filter JS.isArrayIndex shown)
         /\ ((forall m, In m shown -> JS.isArrayIndex m = false ->
                        JS.isSafeInteger (JS.parseInt10 m) = true) ->
             StronglySorted (fun a b => (monthValue b <= monthValue a)%Z)
               (filter (fun m => negb (JS.isArrayIndex m)) shown)).
Proof.
  intros Hcovered.
  destruct (groupTablesByDate localeCompare (Some tables)) as [groups|] eqn:Hret;
    [|now apply (groupTablesByDate_returns localeCompare tables) in Hcovered].
  exists groups. split; [reflexivity|]. revert Hret.
  unfold groupTablesByDate.
  destruct (forEachTable tables []) as [G|] eqn:E; [|discriminate].
  intros H. injection H as <-. intros g Hg.
  apply in_map_iff in Hg as ([y ms] & <- & Hy). cbn [months fst snd].
  destruct (forEachTable_grouped _ _ _ _ groupedByDate_nil E)
    as (_ & Hin & _).
  assert (Hy' : In (y, ms) G).
  { eapply Permutation_in; [|exact Hy].
    etransitivity; [apply sort_perm | apply entries_perm]. }
  destruct (Hin y ms Hy') as [Hnd _].
  assert (Hp : Permutation (JS.sort compareMonths (JS.entries ms)) ms)
    by (etransitivity; [apply sort_perm | apply entries_perm]).
  rewrite fromEntries_NoDup
    by (eapply Permutation_NoDup; [|exact Hnd];
        apply Permutation_map; now symmetry).
  set (S := JS.sort compareMonths (JS.entries ms)).
  cbv zeta.
  destruct (entries_keys_split S) as [HI HO]. rewrite HI, HO.
  split; [|split].
  - unfold JS.entries. now rewrite map_app.
  - apply StronglySorted_map.
    pose proof (insertAllIndex_sorted
                  (filter (fun kv => JS.isArrayIndex (fst kv)) S)) as Hs.
    assert (Hidx : forall e,
               In e (fold_right JS.insertIndex []
                       (filter (fun kv => JS.isArrayIndex (fst kv)) S)) ->
               JS.isArrayIndex (fst e) = true).
    { intros e He. apply (Permutation_in _ (insertAllIndex_perm _)) in He.
      now apply filter_In in He as [_ He]. }
    clear HI HO.
    set (I := fold_right JS.insertIndex []
                (filter (fun kv => JS.isArrayIndex (fst kv)) S)) in *.
    clearbody I.
    induction Hs as [|a l Hl IH Ha]; constructor.
    + apply IH. intros e He. apply Hidx. now right.
    + rewrite Forall_forall in *. intros b Hb.
      rewrite (proj2 (monthValue_index _ (Hidx a (or_introl eq_refl)))),
              (proj2 (monthValue_index _ (Hidx b (or_intror Hb)))).
      now apply Ha.
  - intros Hparse.
    assert (Hnum : forall e, In e (JS.entries ms) ->
                     JS.parseInt10 (fst e) = JS.Num (monthValue (fst e))).
    { intros e He.
      destruct (JS.isArrayIndex (fst e)) eqn:Ei.
      - destruct (monthValue_index _ Ei) as [-> ->]. reflexivity.
      - assert (Hshown : In (fst e) (map fst (JS.entries S))).
        { apply in_map.
          apply (Permutation_in _ (Permutation_sym (entries_perm S))).
          apply (Permutation_in _ (Permutation_sym (sort_perm _ _)) He). }
        specialize (Hparse _ Hshown Ei). unfold monthValue.
        destruct (JS.parseInt10 (fst e)); [discriminate Hparse|reflexivity]. }
    apply StronglySorted_map, StronglySorted_filter.
    subst S.
    rewrite (sort_ext_in compareMonths
               (fun a b => JS.Num (monthValue (fst b) - monthValue (fst a)))).
    + eapply StronglySorted_impl; [|apply sort_sorted].
      * intros a b Hab. unfold JS.notAfter in Hab. cbn [JS.positive] in Hab.
        apply Z.ltb_ge in Hab. lia.
      * unfold JS.notAfter. cbn [JS.positive]. intros a b c Hab Hbc.
        apply Z.ltb_ge. apply Z.ltb_ge in Hab, Hbc. lia.
      * assert (Hall : forall l : list (string * list string),
                   ForallOrdPairs
                     (fun x y =>
                        JS.positive
                          (JS.Num (monthValue (fst y) - monthValue (fst x)))
                        = true ->
                        JS.notAfter
                          (fun a b =>
                             JS.Num (monthValue (fst b) - monthValue (fst a)))
                          y x) l).
        { induction l as [|x l IH]; constructor; [|assumption].
          apply Forall_forall. intros z _. unfold JS.notAfter.
          cbn [JS.positive]. intros Hpos. apply Z.ltb_lt in Hpos.
          apply Z.ltb_ge. lia. }
        apply Hall.
    + intros a b Ha Hb. unfold compareMonths.
      now rewrite (Hnum a Ha), (Hnum b Hb).
Qed.

End MonthOrder.

Lemma groupTablesByDate_keeps_every_table_witness :
  let tables :=
    ["2024_09_a"; "2024_10_b"; "readme"; "2023_10_c"; "2024_09_d";
     "2024_12_e"] in
  forallb Explorer.plainSegments tables = true
  /\ exists groups,
       Explorer.groupTablesByDate Explorer.codeUnitCompare (Some tables)
       = Some groups
       /\ Permutation (Explorer.tablesOf groups)
            (filter Explorer.datedLooking tables).
Proof.
  intros tables.
  assert (H : forallb Explorer.plainSegments tables = true) by reflexivity.
  split; [exact H|].
  exact (groupTablesByDate_keeps_every_table
           Explorer.codeUnitCompare tables H).
Defined.


Lemma groupTablesByDate_month_order_witness :
  let tables :=
    ["2024_09_a"; "2024_10_b"; "readme"; "2023_10_c"; "2024_09_d";
     "2024_12_e"] in
  forallb Explorer.plainSegments tables = true
  /\ exists groups,
       Explorer.groupTablesByDate Explorer.codeUnitCompare (Some tables)
       = Some groups
       /\ forall g, In g groups ->
            StronglySorted
              (fun a b => (Explorer.monthValue a <= Explorer.monthValue b)%Z)
              (filter JS.isArrayIndex
                 (map fst (JS.entries (Explorer.months g)))).
Proof.
  intros tables.
  assert (H : forallb Explorer.plainSegments tables = true) by reflexivity.
  split; [exact H|].
  destruct (groupTablesByDate_month_order
              Explorer.codeUnitCompare tables H)
    as (groups & Hret & Horder).
  exists groups. split; [exact Hret|].
  intros g Hg. exact (proj1 (proj2 (Horder g Hg))).
Defined.

Lemma groupTablesByDate_years_descending_witness :
  let tables :=
    ["2024_09_a"; "2024_10_b"; "readme"; "2023_10_c"; "2024_09_d";
     "2024_12_e"] in
  let groups :=
    [{| Explorer.year := "2024";
        Explorer.months :=
          [("12", ["2024_12_e"]); ("10", ["2024_10_b"]);
           ("09", ["2024_09_a"; "2024_09_d"])] |};
     {| Explorer.year := "2023";
        Explorer.months := [("10", ["2023_10_c"])] |}] in
  Explorer.consistentCollation Explorer.codeUnitCompare
  /\ Explorer.groupTablesByDate Explorer.codeUnitCompare (Some tables)
     = Some groups
  /\ StronglySorted
       (fun g h =>
          (Explorer.codeUnitCompare (Explorer.year h) (Explorer.year g) <= 0)%Z)
       groups.
Proof.
  intros tables groups.
  assert (H : Explorer.groupTablesByDate Explorer.codeUnitCompare (Some tables)
              = Some groups) by reflexivity.
  split; [exact codeUnitCompare_consistent|]. split; [exact H|].
  exact (groupTablesByDate_years_descending
           Explorer.codeUnitCompare tables groups
           codeUnitCompare_consistent H).
Defined.

(** ** The text of a row *)

Section RowLabel.

Import TableSelector.

Lemma nonEmpty_false (s : string) : JS.nonEmpty s = false -> s = "".
Proof. destruct s; [reflexivity|discriminate]. Qed.

(** The text of the row of a table is the end of its name: the whole name
    for a table without date fields, and for a dated one whose type is
    empty; and it is empty for the empty name only. *)
Theorem rowLabel_of_parsed (table : string) :
  (exists before, table = before ++ rowLabel (parseTableName table))
  /\ (dated (parseTableName table) = false ->
      rowLabel (parseTableName table) = table)
  /\ (type (parseTableName table) = Some "" ->
      rowLabel (parseTableName table) = table)
  /\ (rowLabel (parseTableName table) = "" -> table = "").
Proof.
  assert (Hcases : rowLabel (parseTableName table) = table
                   \/ exists t, type (parseTableName table) = Some t
                                /\ t <> ""
                                /\ rowLabel (parseTableName table) = t).
  { unfold rowLabel. rewrite parseTableName_name.
    destruct (type (parseTableName table)) as [t|]; [|now left].
    destruct t as [|c t]; [now left|].
    right. exists (String c t). repeat split. discriminate. }
  repeat split.
  - destruct Hcases as [->|(t & Ht & Hne & ->)]; [now exists ""|].
    unfold parseTableName in Ht.
    pose proof (join_split table) as Hjoin.
    destruct (3 <=? _)%nat; [|discriminate].
    destruct (JS.split "_" table) as [|y [|m [|d rest]]]; try discriminate.
    destruct (negb _ && negb _ && negb _); [|discriminate].
    cbn [type] in Ht. injection Ht as <-.
    destruct rest as [|r rest]; [now elim Hne|].
    exists (y ++ "_" ++ m ++ "_" ++ d ++ "_").
    rewrite <- Hjoin at 1. unfold JS.join. cbn [String.concat].
    now rewrite !append_assoc.
  - intros Hd. rewrite (parseTableName_undated _ Hd). reflexivity.
  - intros Ht. unfold rowLabel. rewrite Ht, parseTableName_name. reflexivity.
  - intros H. destruct Hcases as [Heq|(t & _ & Hne & Heq)]; congruence.
Qed.

End RowLabel.

(** ** Fields inserted one after the other *)

Section InsertAll.

Import Explorer.

Variables selectedDataset selectedTable : option string.

Lemma includes_app_l (a b p : string) :
  JS.includes a p = true -> JS.includes (a ++ b) p = true.
Proof.
  rewrite !includes_spec. intros (before & after & ->).
  exists before, (after ++ b). now rewrite !append_assoc.
Qed.

Lemma insertFieldIntoQuery_contains (query fieldName : string) :
  JS.includes
    (JS.toLowerCase
       (insertFieldIntoQuery query selectedDataset selectedTable fieldName))
    "select" = true.
Proof.
  unfold insertFieldIntoQuery.
  destruct (0 <? String.length query)%nat; [|reflexivity].
  destruct (JS.includes (JS.toLowerCase query) "select") eqn:Hc;
    cbn [negb andb]; [|reflexivity].
  destruct (negb _); rewrite toLowerCase_app; now apply includes_app_l.
Qed.

Lemma insertFieldIntoQuery_appends (query fieldName : string) :
  JS.includes (JS.toLowerCase query) "select" = true ->
  exists tail,
    insertFieldIntoQuery query selectedDataset selectedTable fieldName
    = query ++ tail.
Proof.
  intros Hc. unfold insertFieldIntoQuery. rewrite Hc. cbn [negb andb].
  destruct query as [|c query]; [discriminate Hc|].
  cbn [String.length Nat.ltb Nat.leb].
  destruct (negb _); eexists; reflexivity.
Qed.

(** Once a field has been inserted, the text is only ever continued:
    whatever the query was, the text that the first insertion stores holds
    the letters of SELECT, and every further insertion appends to the text
    before it and replaces nothing of it. *)
Theorem insertAll_only_appends (query fieldName : string)
    (fieldNames : list string) :
  JS.includes
    (JS.toLowerCase
       (insertFieldIntoQuery query selectedDataset selectedTable fieldName))
    "select" = true
  /\ exists tail,
       insertAll query selectedDataset selectedTable (fieldName :: fieldNames)
       = insertFieldIntoQuery query selectedDataset selectedTable fieldName
         ++ tail.
Proof.
  pose proof (insertFieldIntoQuery_contains query fieldName) as Hc.
  split; [exact Hc|].
  unfold insertAll. cbn [fold_left].
  revert Hc.
  generalize (insertFieldIntoQuery query selectedDataset selectedTable
                fieldName) as r.
  induction fieldNames as [|f fieldNames IH]; intros r Hc.
  - exists "". cbn [fold_left]. now rewrite append_nil_r.
  - cbn [fold_left].
    destruct (insertFieldIntoQuery_appends r f Hc) as [t Ht].
    destruct (IH _ (insertFieldIntoQuery_contains r f)) as [tail Htail].
    exists (t ++ tail). now rewrite Htail, Ht, append_assoc.
Qed.

End InsertAll.

(** ** What the compiled text leaves out, and an empty HAVING *)

Section CompiledText.

Import QueryBuilder.

Variables (state : QueryBuilderState) (autoAlias : bool).

(** The compiled text never shows the expression or the aggregation of a
    field: selections that agree field by field on name, alias and table
    alias compile to the same text. *)
Theorem updateQueryFromState_ignores_aggregation
    (newState : QueryBuilderState) (fs fs' : list QueryField) :
  Forall2 (fun f f' => fieldName f = fieldName f'
                       /\ alias f = alias f'
                       /\ tableAlias f = tableAlias f') fs fs' ->
  fst (updateQueryFromState state autoAlias (withSelectedFields fs newState))
  = fst (updateQueryFromState state autoAlias (withSelectedFields fs' newState)).
Proof.
  intros H.
  assert (Hmap : map (renderField autoAlias) fs
                 = map (renderField autoAlias) fs').
  { induction H as [|f f' l l' (Hn & Ha & Ht) _ IH]; [reflexivity|].
    cbn [map]. rewrite IH. f_equal.
    unfold renderField, fieldRef, fieldAlias. now rewrite Hn, Ha, Ht. }
  unfold updateQueryFromState. cbn [selectedFields withSelectedFields].
  destruct H as [|f f' l l' _ _]; [reflexivity|].
  cbn [fst]. unfold fieldList. now rewrite Hmap.
Qed.

(** A [having] is compiled whenever the grouping has fields, also when it
    holds no condition: unlike an empty [where], which is left out, it puts
    a HAVING keyword with nothing after it into the text; here the text of
    a state without order and limit ends with it. *)
Theorem updateQueryFromState_empty_having
    (newState : QueryBuilderState) (g : GroupByClause) (h : WhereClause) :
  selectedFields newState <> [] ->
  groupBy newState = Some g ->
  fields g <> [] ->
  having g = Some h ->
  conditions h = [] ->
  orderBy newState = None ->
  limit newState = None ->
  exists before,
    fst (updateQueryFromState state autoAlias newState)
    = before ++ JS.nl ++ "GROUP BY " ++ JS.join ", " (fields g)
      ++ JS.nl ++ "HAVING ".
Proof.
  intros Hsel Hg Hf Hh Hc Ho Hl.
  rewrite (updateQueryFromState_text state autoAlias _ Hsel). cbn [fst].
  unfold groupByText, orderByText, limitText, truthyNumber, renderConditions.
  rewrite Hg, Hh, Hc, Ho, Hl.
  destruct (fields g) as [|x xs] eqn:E; [contradiction|].
  eexists. cbn [map]. unfold JS.join at 2. cbn [String.concat].
  rewrite !append_nil_r. rewrite <- !append_assoc. reflexivity.
Qed.

End CompiledText.

Lemma updateQueryFromState_ignores_aggregation_witness :
  let fs :=
    [{| QueryBuilder.fieldName := "total"; QueryBuilder.alias := None;
        QueryBuilder.tableAlias := None;
        QueryBuilder.expression := Some "price * quantity";
        QueryBuilder.aggregation := Some QueryBuilder.SUM |}] in
  let fs' := [QueryBuilder.plainField "total"] in
  Forall2 (fun f f' =>
             QueryBuilder.fieldName f = QueryBuilder.fieldName f'
             /\ QueryBuilder.alias f = QueryBuilder.alias f'
             /\ QueryBuilder.tableAlias f = QueryBuilder.tableAlias f') fs fs'
  /\ fst (QueryBuilder.updateQueryFromState QueryBuilder.emptyState true
            (QueryBuilder.withSelectedFields fs QueryBuilder.emptyState))
     = fst (QueryBuilder.updateQueryFromState QueryBuilder.emptyState true
              (QueryBuilder.withSelectedFields fs' QueryBuilder.emptyState)).
Proof.
  intros fs fs'.
  assert (H : Forall2 (fun f f' =>
                QueryBuilder.fieldName f = QueryBuilder.fieldName f'
                /\ QueryBuilder.alias f = QueryBuilder.alias f'
                /\ QueryBuilder.tableAlias f = QueryBuilder.tableAlias f')
                fs fs')
    by (repeat constructor).
  split; [exact H|].
  exact (updateQueryFromState_ignores_aggregation
           QueryBuilder.emptyState true QueryBuilder.emptyState fs fs' H).
Defined.

Lemma updateQueryFromState_empty_having_witness :
  let h := {| QueryBuilder.conditions := [];
              QueryBuilder.conjunction := QueryBuilder.AND |} in
  let g := {| QueryBuilder.fields := ["region"];
              QueryBuilder.having := Some h |} in
  let newState :=
    {| QueryBuilder.selectedFields := [QueryBuilder.plainField "region"];
       QueryBuilder.joins := []; QueryBuilder.where_ := None;
       QueryBuilder.groupBy := Some g; QueryBuilder.orderBy := None;
       QueryBuilder.limit := None; QueryBuilder.offset := None;
       QueryBuilder.distinct := false |} in
  QueryBuilder.selectedFields newState <> []
  /\ QueryBuilder.groupBy newState = Some g
  /\ QueryBuilder.fields g <> []
  /\ QueryBuilder.having g = Some h
  /\ QueryBuilder.conditions h = []
  /\ QueryBuilder.orderBy newState = None
  /\ QueryBuilder.limit newState = None
  /\ exists before,
       fst (QueryBuilder.updateQueryFromState newState true newState)
       = before ++ JS.nl ++ "GROUP BY "
         ++ JS.join ", " (QueryBuilder.fields g) ++ JS.nl ++ "HAVING ".
Proof.
  intros h g newState.
  assert (H1 : QueryBuilder.selectedFields newState <> []) by discriminate.
  assert (H3 : QueryBuilder.fields g <> []) by discriminate.
  split; [exact H1|]. split; [reflexivity|]. split; [exact H3|].
  split; [reflexivity|]. split; [reflexivity|]. split; [reflexivity|].
  split; [reflexivity|].
  exact (updateQueryFromState_empty_having newState true newState g h
           H1 eq_refl H3 eq_refl eq_refl eq_refl eq_refl).
Defined.
